(** * Partituras: score-to-MIDI transcription, embedded and verified

    A shallow embedding of the three converters of the repository

    - [xml_to_midi.py]   ([DirectXMLtoMIDIConverter]),
    - [converter.py]     ([YamahaCSPConverter]),
    - [advanced_mscz_converter.py] ([AdvancedMSCZConverter]),

    followed by theorems about key-signature resolution, tie chains,
    per-channel delta encoding and the hand-split heuristic.

    Conventions of the embedding.
    - Python integers are [Z]; [//] is [Z.div] (floor), [int(x * 1.5)] on an
      integer [x] is [Z.quot (x * 3) 2] (truncation toward zero; the float
      product is exact for every |x| below 2^51).
    - An ElementTree node is a record holding exactly the sub-nodes the code
      asks for.  A field of type [option (option string)] reads: [None] when
      [find] returns [None], [Some None] when the node exists and its [.text]
      is [None], [Some (Some t)] when the text is [t].
    - Python exceptions are the error side of the [py] monad.
    - dicts are [gmap]s, sets are [gset]s, lists are lists.
    - mido messages are records; mido's own range validation of data bytes
      and the binary serialisation done by [save] are outside the model:
      a saved file is the value handed to [save]. *)

From Stdlib Require Import ZArith String Ascii List.
From stdpp Require Import gmap strings list fin_maps sorting pretty.

Local Open Scope string_scope.
Local Open Scope list_scope.
Local Open Scope Z_scope.

(** ** Python values, exceptions and [int()] *)

Module Py.

Inductive exn : Type := AttributeError | TypeError | ValueError.

Inductive py (A : Type) : Type :=
| Ok (a : A)
| Raise (e : exn).
Arguments Ok {A} a.
Arguments Raise {A} e.

Definition bind {A B} (m : py A) (k : A -> py B) : py B :=
  match m with
  | Ok a => k a
  | Raise e => Raise e
  end.

(** [for x in l: st = body st x], stopping at the first exception. *)
Fixpoint for_each {S A} (body : S -> A -> py S) (l : list A) (st : S) : py S :=
  match l with
  | [] => Ok st
  | x :: rest => bind (body st x) (for_each body rest)
  end.

(** ASCII characters for which [str.isspace] holds: TAB, LF, VT, FF, CR,
    FS, GS, RS, US and SPACE. *)
Definition is_space (c : ascii) : bool :=
  let n := nat_of_ascii c in
  ((9 <=? n)%nat && (n <=? 13)%nat) || ((28 <=? n)%nat && (n <=? 32)%nat).

Fixpoint lstrip (s : list ascii) : list ascii :=
  match s with
  | [] => []
  | c :: rest => if is_space c then lstrip rest else s
  end.

Definition rstrip (s : list ascii) : list ascii := rev (lstrip (rev s)).

(** [str.strip()] *)
Definition strip (s : string) : string :=
  string_of_list_ascii (rstrip (lstrip (list_ascii_of_string s))).

Definition digit_value (c : ascii) : option Z :=
  let n := nat_of_ascii c in
  if ((48 <=? n)%nat && (n <=? 57)%nat) then Some (Z.of_nat n - 48) else None.

(** Decimal digits with single underscores allowed between digits. *)
Fixpoint digits (acc : Z) (after_digit : bool) (s : list ascii) : option Z :=
  match s with
  | [] => if after_digit then Some acc else None
  | c :: rest =>
      match digit_value c with
      | Some d => digits (10 * acc + d) true rest
      | None =>
          if (Ascii.eqb c "_"%char && after_digit)%bool
          then digits acc false rest
          else None
      end
  end.

Definition signed_digits (s : list ascii) : option Z :=
  match s with
  | "-"%char :: rest => Z.opp <$> digits 0 false rest
  | "+"%char :: rest => digits 0 false rest
  | _ => digits 0 false s
  end.

(** [int(s)] for an ASCII string [s]: surrounding whitespace is ignored,
    anything that is not an optionally signed decimal literal raises
    [ValueError]. *)
Definition int (s : string) : py Z :=
  match signed_digits (rstrip (lstrip (list_ascii_of_string s))) with
  | Some z => Ok z
  | None => Raise ValueError
  end.

(** [int(node.text)] where [node] comes from [find]: [None.text] raises
    [AttributeError], [int(None)] raises [TypeError]. *)
Definition int_of_node_text (node : option (option string)) : py Z :=
  match node with
  | None => Raise AttributeError
  | Some None => Raise TypeError
  | Some (Some t) => int t
  end.

End Py.

Notation "'let*' x ':=' m 'in' k" := (Py.bind m (fun x => k))
  (at level 10, x name, m at level 100, k at level 200).

(** ** mido messages and files *)

Module Mido.

(** One record for channel messages and meta messages; the attributes a
    message type does not carry are left at their defaults. *)
Record Message : Type := mkMessage {
  type : string;
  is_meta : bool;
  channel : Z;
  note : Z;
  velocity : Z;
  program : Z;
  control : Z;
  value : Z;
  name : string;
  key : string;
  time : Z
}.

Definition set_channel (c : Z) (m : Message) : Message :=
  {| type := type m; is_meta := is_meta m; channel := c; note := note m;
     velocity := velocity m; program := program m; control := control m;
     value := value m; name := name m; key := key m; time := time m |}.

Definition set_time (t : Z) (m : Message) : Message :=
  {| type := type m; is_meta := is_meta m; channel := channel m; note := note m;
     velocity := velocity m; program := program m; control := control m;
     value := value m; name := name m; key := key m; time := t |}.

(** [mido.MetaMessage('track_name', name=n, time=0)] *)
Definition track_name (n : string) : Message :=
  {| type := "track_name"; is_meta := true; channel := 0; note := 0; velocity := 0;
     program := 0; control := 0; value := 0; name := n; key := ""; time := 0 |}.

(** [mido.MetaMessage('key_signature', key=k, time=0)] *)
Definition key_signature (k : string) : Message :=
  {| type := "key_signature"; is_meta := true; channel := 0; note := 0; velocity := 0;
     program := 0; control := 0; value := 0; name := ""; key := k; time := 0 |}.

(** [mido.Message('program_change', channel=c, program=p, time=0)] *)
Definition program_change (c p : Z) : Message :=
  {| type := "program_change"; is_meta := false; channel := c; note := 0; velocity := 0;
     program := p; control := 0; value := 0; name := ""; key := ""; time := 0 |}.

(** [mido.Message(ty, note=n, velocity=v, time=t, channel=c)] *)
Definition note_message (ty : string) (n v t c : Z) : Message :=
  {| type := ty; is_meta := false; channel := c; note := n; velocity := v;
     program := 0; control := 0; value := 0; name := ""; key := ""; time := t |}.

Record MidiFile : Type := mkMidiFile {
  midi_type : Z;
  ticks_per_beat : Z;
  tracks : list (list Message)
}.

(** Absolute tick of every message of a track: the running sum of the
    delta times, starting from [t0]. *)
Fixpoint absolute_ticks (t0 : Z) (track : list Message) : list Z :=
  match track with
  | [] => []
  | m :: rest => (t0 + time m) :: absolute_ticks (t0 + time m) rest
  end.

End Mido.

(** Stable sort on an integer key, as [list.sort(key=...)]: the result of a
    stable sort is unique, so insertion sort stands for Python's. *)
Section StableSort.
Context {A : Type} (sort_key : A -> Z).

Fixpoint insert_by (x : A) (l : list A) : list A :=
  match l with
  | [] => [x]
  | y :: rest => if sort_key x <=? sort_key y then x :: l else y :: insert_by x rest
  end.

Definition sort_by (l : list A) : list A := foldr insert_by [] l.
End StableSort.

(** [range(a, b)] *)
Definition range (a b : Z) : list Z :=
  (fun i => a + Z.of_nat i) <$> seq 0 (Z.to_nat (b - a)).

(** ** xml_to_midi.py *)

Module XmlToMidi.
Import Py.

(** A [<KeySig>] node: its [<accidental>] and [<mode>] children. *)
Record KeySig : Type := mkKeySig {
  accidental : option (option string);
  mode : option (option string)
}.

(** A [<Note>] node: its [<pitch>] child and whether [.//Spanner/prev] and
    [.//Spanner/next] are found below it. *)
Record Note : Type := mkNote {
  pitch_node : option (option string);
  spanner_prev : bool;
  spanner_next : bool
}.

(** A child of a [<voice>]: its tag, its [<durationType>] child, whether
    it has a [<dots>] child, and its [<Note>] children. *)
Record Element : Type := mkElement {
  tag : string;
  durationType : option (option string);
  dots : bool;
  notes : list Note
}.

(** A staff is a list of measures, a measure a list of voices, a voice a
    list of elements. *)
Definition Voice : Type := list Element.
Definition Measure : Type := list Voice.
Definition Staff : Type := list Measure.

(** The document: the first [.//Division], the [.//Score/Staff] nodes and
    all [.//KeySig] nodes in document order. *)
Record Root : Type := mkRoot {
  Division : option (option string);
  all_staves : list Staff;
  all_key_sigs : list KeySig
}.

Definition SHARPS_TO_MAJOR : gmap Z string :=
  list_to_map
    [(0, "C"); (1, "G"); (2, "D"); (3, "A"); (4, "E"); (5, "B"); (6, "F#"); (7, "C#");
     (-1, "F"); (-2, "Bb"); (-3, "Eb"); (-4, "Ab"); (-5, "Db"); (-6, "Gb"); (-7, "Cb")].

Definition SHARPS_TO_MINOR : gmap Z string :=
  list_to_map
    [(0, "Am"); (1, "Em"); (2, "Bm"); (3, "F#m"); (4, "C#m"); (5, "G#m"); (6, "D#m");
     (7, "A#m"); (-1, "Dm"); (-2, "Gm"); (-3, "Cm"); (-4, "Fm"); (-5, "Bbm");
     (-6, "Ebm"); (-7, "Abm")].

(** [mode_node.text if mode_node is not None else 'major'], then the
    choice of table and [key_map.get(fifths, 'C')]. *)
Definition result_key (mode_node : option (option string)) (fifths : Z) : string :=
  let mode := match mode_node with Some t => t | None => Some "major" end in
  let key_map :=
    if decide (mode = Some "minor") then SHARPS_TO_MINOR else SHARPS_TO_MAJOR in
  default "C" (key_map !! fifths).

(** The body of the [try]: the loop over all [<KeySig>] nodes. *)
Fixpoint key_sig_scan (key_sigs : list KeySig) : py string :=
  match key_sigs with
  | [] => Ok "C"
  | ks_node :: rest =>
      match accidental ks_node with
      | Some (Some text) =>
          let fifths_text := strip text in
          if decide (fifths_text = "") then key_sig_scan rest
          else
            let* fifths := int fifths_text in
            Ok (result_key (mode ks_node) fifths)
      | _ => key_sig_scan rest
      end
  end.

(** [except Exception: return 'C'] around the scan. *)
Definition _get_key_signature (root_node : Root) : string :=
  match key_sig_scan (all_key_sigs root_node) with
  | Ok k => k
  | Raise _ => "C"
  end.

(** An entry of [events]: the dict with keys ['tick'], ['type'] and
    ['pitch']. *)
Record event : Type := mkEvent {
  tick : Z;
  type : string;
  pitch : Z
}.

Definition note_on (t p : Z) : event := {| tick := t; type := "note_on"; pitch := p |}.
Definition note_off (t p : Z) : event := {| tick := t; type := "note_off"; pitch := p |}.

Definition duration_map (ticks_per_quarter : Z) : gmap string Z :=
  let m : gmap string Z :=
    list_to_map
      [("whole", ticks_per_quarter * 4); ("half", ticks_per_quarter * 2);
       ("quarter", ticks_per_quarter); ("eighth", ticks_per_quarter / 2);
       ("16th", ticks_per_quarter / 4); ("32nd", ticks_per_quarter / 8);
       ("64th", ticks_per_quarter / 16); ("measure", ticks_per_quarter * 2)] in
  <["breve" := m !!! "measure"]> (<["black" := m !!! "quarter"]> m).

(** [duration_map.get(duration_type, 0)], where [duration_type] may be
    [None], followed by the dotted lengthening. *)
Definition base_duration (division : Z) (duration_type : option string) (dotted : bool) : Z :=
  let base :=
    match duration_type with
    | Some t => default 0 (duration_map division !! t)
    | None => 0
    end in
  if dotted then Z.quot (base * 3) 2 else base.

(** The variables the three loops share. *)
Record state : Type := mkState {
  events : list event;
  current_tick : Z;
  open_ties : gmap Z (Z * Z)
}.

(** The tie bookkeeping done for one note of pitch [pitch]: the branches
    on [is_tied_from_prev] and [is_tied_to_next]. *)
Definition tie_update (duration : Z) (st : state) (pitch : Z)
    (is_tied_from_prev is_tied_to_next : bool) : state :=
  if is_tied_from_prev then
    let ties :=
      match open_ties st !! pitch with
      | Some (start_tick, total) =>
          <[pitch := (start_tick, total + duration)]> (open_ties st)
      | None => open_ties st
      end in
    if negb is_tied_to_next then
      match ties !! pitch with
      | Some (start_tick, total_duration) =>
          {| events := events st ++
                       [note_on start_tick pitch;
                        note_off (start_tick + total_duration) pitch];
             current_tick := current_tick st;
             open_ties := delete pitch ties |}
      | None =>
          {| events := events st; current_tick := current_tick st; open_ties := ties |}
      end
    else
      {| events := events st; current_tick := current_tick st; open_ties := ties |}
  else if is_tied_to_next then
    {| events := events st; current_tick := current_tick st;
       open_ties := <[pitch := (current_tick st, duration)]> (open_ties st) |}
  else
    {| events := events st ++
                 [note_on (current_tick st) pitch;
                  note_off (current_tick st + duration) pitch];
       current_tick := current_tick st;
       open_ties := open_ties st |}.

(** The body of [for note_node in element.findall('Note')]. *)
Definition process_note (duration : Z) (st : state) (note_node : Note) : py state :=
  match pitch_node note_node with
  | None => Ok st
  | Some text =>
      let* pitch := int_of_node_text (Some text) in
      Ok (tie_update duration st pitch (spanner_prev note_node) (spanner_next note_node))
  end.

Definition advance (duration : Z) (st : state) : state :=
  {| events := events st; current_tick := current_tick st + duration;
     open_ties := open_ties st |}.

(** The body of [for element in voice]. *)
Definition process_element (division : Z) (st : state) (element : Element) : py state :=
  match durationType element with
  | None => Ok st
  | Some duration_type =>
      let duration := base_duration division duration_type (dots element) in
      if decide (tag element = "Chord") then
        let* st' := for_each (process_note duration) (notes element) st in
        Ok (advance duration st')
      else if decide (tag element = "Rest") then
        Ok (advance duration st)
      else Ok st
  end.

Definition process_voice (division : Z) (st : state) (voice : Voice) : py state :=
  for_each (process_element division) voice st.

Definition process_measure (division : Z) (st : state) (measure : Measure) : py state :=
  for_each (process_voice division) measure st.

Definition initial_state : state :=
  {| events := []; current_tick := 0; open_ties := ∅ |}.

Definition get_note_events_from_staff (root_node : Root) (staff_node : Staff)
  : py (list event) :=
  let* division := int_of_node_text (Division root_node) in
  let* st := for_each (process_measure division) staff_node initial_state in
  Ok (events st).

(** What a call of [convert] ends with. *)
Inductive outcome : Type :=
| ReturnsFalse
| SavesAndReturnsTrue (mid : Mido.MidiFile)
| Raises (e : exn).

(** An event after [event['channel'] = c]. *)
Record channel_event : Type := mkChannelEvent {
  ev : event;
  channel : Z
}.

Record cursors : Type := mkCursors {
  right_track : list Mido.Message;
  left_track : list Mido.Message;
  last_tick_right : Z;
  last_tick_left : Z
}.

(** The body of [for event in all_midi_events]. *)
Definition emit (c : cursors) (event : channel_event) : cursors :=
  let velocity := if decide (type (ev event) = "note_on") then 90 else 0 in
  if decide (channel event = 0) then
    let delta_time := tick (ev event) - last_tick_right c in
    {| right_track := right_track c ++
         [Mido.note_message (type (ev event)) (pitch (ev event)) velocity delta_time 0];
       left_track := left_track c;
       last_tick_right := tick (ev event);
       last_tick_left := last_tick_left c |}
  else
    let delta_time := tick (ev event) - last_tick_left c in
    {| right_track := right_track c;
       left_track := left_track c ++
         [Mido.note_message (type (ev event)) (pitch (ev event)) velocity delta_time 1];
       last_tick_right := last_tick_right c;
       last_tick_left := tick (ev event) |}.

(** [right_hand_events + left_hand_events], tagged with their channels and
    sorted by tick. *)
Definition merge_events (right_hand_events left_hand_events : list event)
  : list channel_event :=
  sort_by (fun e => tick (ev e))
    (map (fun e => {| ev := e; channel := 0 |}) right_hand_events ++
     map (fun e => {| ev := e; channel := 1 |}) left_hand_events).

Definition track_header (hand : string) (key_signature_name : string) (chan : Z)
  : list Mido.Message :=
  [Mido.track_name hand; Mido.key_signature key_signature_name;
   Mido.program_change chan 0].

(** From the sorted events to the two finished tracks. *)
Definition assemble_tracks (key_signature_name : string)
    (all_midi_events : list channel_event) : cursors :=
  foldl emit
    {| right_track := track_header "Mano Derecha" key_signature_name 0;
       left_track := track_header "Mano Izquierda" key_signature_name 1;
       last_tick_right := 0; last_tick_left := 0 |}
    all_midi_events.

(** [convert]; [file] is what reading the archive and parsing its score
    gives: [None] when no [.mscx] entry is found or reading raises. *)
Definition convert (file : option Root) : outcome :=
  match file with
  | None => ReturnsFalse
  | Some root =>
      match int_of_node_text (Division root) with
      | Raise AttributeError | Raise TypeError => ReturnsFalse
      | Raise ValueError => Raises ValueError
      | Ok ticks_per_beat =>
          match all_staves root with
          | staff0 :: staff1 :: _ =>
              let key_signature_name := _get_key_signature root in
              match get_note_events_from_staff root staff0 with
              | Raise e => Raises e
              | Ok right_hand_events =>
                  match get_note_events_from_staff root staff1 with
                  | Raise e => Raises e
                  | Ok left_hand_events =>
                      let c := assemble_tracks key_signature_name
                                 (merge_events right_hand_events left_hand_events) in
                      SavesAndReturnsTrue
                        {| Mido.midi_type := 1; Mido.ticks_per_beat := ticks_per_beat;
                           Mido.tracks := [right_track c; left_track c] |}
                  end
              end
          | _ => ReturnsFalse
          end
      end
  end.

End XmlToMidi.


(** ** converter.py *)

Module Yamaha.

(** [any(msg.type.startswith('note') for msg in track)] *)
Definition has_note_messages (track : list Mido.Message) : bool :=
  existsb (fun msg => String.prefix "note" (Mido.type msg)) track.

(** [msg.copy(channel=c)] for a channel message, the message itself for a
    meta message. *)
Definition rechannel (c : Z) (msg : Mido.Message) : Mido.Message :=
  if Mido.is_meta msg then msg else Mido.set_channel c msg.

Definition hand_track (hand : string) (c : Z) (source : list Mido.Message)
  : list Mido.Message :=
  [Mido.track_name hand; Mido.program_change c 0] ++ map (rechannel c) source.

(** [YamahaCSPConverter.convert].  [rendered] is the MIDI file MuseScore
    wrote and mido read back: [None] when the external conversion fails
    or reading raises.  The result is the file saved, [None] standing for
    [return False] (nothing is saved on that path). *)
Definition convert (rendered : option Mido.MidiFile) : option Mido.MidiFile :=
  match rendered with
  | None => None
  | Some source_mid =>
      let note_tracks := filter (fun t => has_note_messages t = true) (Mido.tracks source_mid) in
      match note_tracks with
      | track0 :: track1 :: _ =>
          Some {| Mido.midi_type := 1;
                  Mido.ticks_per_beat := Mido.ticks_per_beat source_mid;
                  Mido.tracks := [hand_track "Mano Derecha" 0 track0;
                                  hand_track "Mano Izquierda" 1 track1] |}
      | _ => None
      end
  end.

End Yamaha.

(** ** advanced_mscz_converter.py *)

Module Advanced.

(** The [analysis] dict. *)
Record analysis : Type := mkAnalysis {
  needs_separation : bool;
  total_tracks : nat;
  musical_tracks : Z;
  channels_used : gset Z;
  note_distribution_low : Z;
  note_distribution_high : Z;
  split_point : Z
}.

(** [msg.type == 'note_on' and msg.velocity > 0] *)
Definition sounding_note_on (msg : Mido.Message) : bool :=
  bool_decide (Mido.type msg = "note_on") && (0 <? Mido.velocity msg).

(** [note_counts[note] += 1] over all notes, on a [defaultdict(int)]. *)
Definition count_notes (all_notes : list Z) : gmap Z Z :=
  foldl (fun note_counts note => <[note := default 0 (note_counts !! note) + 1]> note_counts)
        ∅ all_notes.

(** [min(l)] and [max(l)] of a non-empty list. *)
Definition py_min (l : list Z) : Z :=
  match l with
  | [] => 0
  | x :: rest => foldl Z.min x rest
  end.

Definition py_max (l : list Z) : Z :=
  match l with
  | [] => 0
  | x :: rest => foldl Z.max x rest
  end.

(** The inner loop: [density += note_counts.get(note, 0)] for the five
    pitches around the candidate. *)
Definition density (note_counts : gmap Z Z) (split_candidate : Z) : Z :=
  foldl (fun d note => d + default 0 (note_counts !! note)) 0
        (range (split_candidate - 2) (split_candidate + 3)).

(** [(best_split, min_density)]; [None] is [float('inf')]. *)
Definition consider (note_counts : gmap Z Z) (acc : Z * option Z) (split_candidate : Z)
  : Z * option Z :=
  let d := density note_counts split_candidate in
  match snd acc with
  | None => (split_candidate, Some d)
  | Some min_density =>
      if d <? min_density then (split_candidate, Some d) else acc
  end.

Definition search_start (all_notes : list Z) : Z := Z.max 48 (py_min all_notes).
Definition search_end (all_notes : list Z) : Z := Z.min 72 (py_max all_notes).

Definition _calculate_optimal_split (all_notes : list Z) : Z :=
  match all_notes with
  | [] => 60
  | _ =>
      let note_counts := count_notes all_notes in
      fst (foldl (consider note_counts) (60, None)
                 (range (search_start all_notes) (search_end all_notes + 1)))
  end.

(** What the two loops of [_analyze_track_structure] accumulate. *)
Record tally : Type := mkTally {
  t_musical_tracks : Z;
  t_channels_used : gset Z;
  t_low : Z;
  t_high : Z;
  t_all_notes : list Z
}.

(** The body of [for msg in track]; the boolean is [has_notes]. *)
Definition tally_message (acc : tally * bool) (msg : Mido.Message) : tally * bool :=
  if sounding_note_on msg then
    let t := fst acc in
    ({| t_musical_tracks := t_musical_tracks t;
        t_channels_used := t_channels_used t ∪ {[ Mido.channel msg ]};
        t_low := if Mido.note msg <? 60 then t_low t + 1 else t_low t;
        t_high := if Mido.note msg <? 60 then t_high t else t_high t + 1;
        t_all_notes := t_all_notes t ++ [Mido.note msg] |}, true)
  else acc.

(** The body of [for track_idx, track in enumerate(midi_file.tracks)]. *)
Definition tally_track (t : tally) (track : list Mido.Message) : tally :=
  let '(t', has_notes) := foldl tally_message (t, false) track in
  if has_notes then
    {| t_musical_tracks := t_musical_tracks t' + 1;
       t_channels_used := t_channels_used t';
       t_low := t_low t'; t_high := t_high t';
       t_all_notes := t_all_notes t' |}
  else t'.

Definition tally_file (midi_file : Mido.MidiFile) : tally :=
  foldl tally_track
    {| t_musical_tracks := 0; t_channels_used := ∅; t_low := 0; t_high := 0;
       t_all_notes := [] |}
    (Mido.tracks midi_file).

Definition _analyze_track_structure (midi_file : Mido.MidiFile) : analysis :=
  let t := tally_file midi_file in
  let separate :=
    bool_decide (size (t_channels_used t) ≤ 1)%nat && (5 <? t_low t) && (5 <? t_high t) in
  {| needs_separation := separate;
     total_tracks := length (Mido.tracks midi_file);
     musical_tracks := t_musical_tracks t;
     channels_used := t_channels_used t;
     note_distribution_low := t_low t;
     note_distribution_high := t_high t;
     split_point := if separate then _calculate_optimal_split (t_all_notes t) else 60 |}.

Definition is_note (msg : Mido.Message) : bool :=
  bool_decide (Mido.type msg = "note_on") || bool_decide (Mido.type msg = "note_off").

Definition is_control (msg : Mido.Message) : bool :=
  bool_decide (Mido.type msg = "control_change")
  || bool_decide (Mido.type msg = "program_change").

(** [msg.type in ['note_on', 'note_off', 'control_change', 'program_change']] *)
Definition is_musical (msg : Mido.Message) : bool :=
  bool_decide (Mido.type msg = "note_on") || bool_decide (Mido.type msg = "note_off")
  || bool_decide (Mido.type msg = "control_change")
  || bool_decide (Mido.type msg = "program_change").

(** One track of the first loop: [track_time += msg.time], keeping the
    musical messages with their absolute time. *)
Fixpoint timed_events (track_time : Z) (track : list Mido.Message)
  : list (Z * Mido.Message) :=
  match track with
  | [] => []
  | msg :: rest =>
      let track_time := track_time + Mido.time msg in
      if is_musical msg
      then (track_time, msg) :: timed_events track_time rest
      else timed_events track_time rest
  end.

(** [combined_events] after [sort(key=lambda x: x[0])]. *)
Definition combined_events (original_mid : Mido.MidiFile) : list (Z * Mido.Message) :=
  sort_by fst (concat (map (timed_events 0) (Mido.tracks original_mid))).

Record hands : Type := mkHands {
  right_hand_track : list Mido.Message;
  left_hand_track : list Mido.Message;
  right_last_time : Z;
  left_last_time : Z
}.

(** [new_msg = msg.copy(); new_msg.channel = c; new_msg.time = delta] *)
Definition retimed (c delta : Z) (msg : Mido.Message) : Mido.Message :=
  Mido.set_time delta (Mido.set_channel c msg).

(** The body of [for abs_time, msg in combined_events]. *)
Definition place (split : Z) (h : hands) (timed : Z * Mido.Message) : hands :=
  let '(abs_time, msg) := timed in
  if is_note msg then
    if split <=? Mido.note msg then
      {| right_hand_track :=
           right_hand_track h ++ [retimed 0 (abs_time - right_last_time h) msg];
         left_hand_track := left_hand_track h;
         right_last_time := abs_time;
         left_last_time := left_last_time h |}
    else
      {| right_hand_track := right_hand_track h;
         left_hand_track :=
           left_hand_track h ++ [retimed 1 (abs_time - left_last_time h) msg];
         right_last_time := right_last_time h;
         left_last_time := abs_time |}
  else if is_control msg then
    {| right_hand_track :=
         right_hand_track h ++ [retimed 0 (abs_time - right_last_time h) msg];
       left_hand_track :=
         left_hand_track h ++ [retimed 1 (abs_time - left_last_time h) msg];
       right_last_time := abs_time;
       left_last_time := abs_time |}
  else h.

Definition separate_hands (split : Z) (events : list (Z * Mido.Message)) : hands :=
  foldl (place split)
    {| right_hand_track := [Mido.track_name "Mano Derecha"; Mido.program_change 0 0];
       left_hand_track := [Mido.track_name "Mano Izquierda"; Mido.program_change 1 0];
       right_last_time := 0; left_last_time := 0 |}
    events.

(** [_create_separated_midi]; [meta_track] is the track filled by
    [_add_metadata_track]. *)
Definition _create_separated_midi (original_mid : Mido.MidiFile)
    (meta_track : list Mido.Message) (a : analysis) : Mido.MidiFile :=
  let h := separate_hands (split_point a) (combined_events original_mid) in
  {| Mido.midi_type := 1;
     Mido.ticks_per_beat := Mido.ticks_per_beat original_mid;
     Mido.tracks := [meta_track; right_hand_track h; left_hand_track h] |}.

End Advanced.

(** ** Notions the statements are written with *)

Module KeySpec.
Import Py XmlToMidi.

(** A declaration the scan passes over: no [<accidental>], no text in it,
    or only blanks. *)
Definition skipped (ks : KeySig) : Prop :=
  match accidental ks with
  | Some (Some t) => strip t = ""
  | _ => True
  end.

(** The declaration carries a non-blank accidental text [t]. *)
Definition declares (ks : KeySig) (t : string) : Prop :=
  accidental ks = Some (Some t) /\ strip t <> "".

(** A non-blank accidental text that is not an integer, or is one outside
    -7..7. *)
Definition invalid_count (ks : KeySig) : Prop :=
  exists t, declares ks t /\
    (int (strip t) = Raise ValueError \/
     exists f, int (strip t) = Ok f /\ ~ (-7 <= f <= 7)).

Definition is_minor (mode_node : option (option string)) : bool :=
  bool_decide (mode_node = Some (Some "minor")).

(** The circle of fifths, major keys and their relative minors. *)
Definition key_name (fifths : Z) (minor : bool) : string :=
  match fifths, minor with
  | 0, false => "C" | 1, false => "G" | 2, false => "D" | 3, false => "A"
  | 4, false => "E" | 5, false => "B" | 6, false => "F#" | 7, false => "C#"
  | -1, false => "F" | -2, false => "Bb" | -3, false => "Eb" | -4, false => "Ab"
  | -5, false => "Db" | -6, false => "Gb" | -7, false => "Cb"
  | 0, true => "Am" | 1, true => "Em" | 2, true => "Bm" | 3, true => "F#m"
  | 4, true => "C#m" | 5, true => "G#m" | 6, true => "D#m" | 7, true => "A#m"
  | -1, true => "Dm" | -2, true => "Gm" | -3, true => "Cm" | -4, true => "Fm"
  | -5, true => "Bbm" | -6, true => "Ebm" | -7, true => "Abm"
  | _, _ => "C"
  end.

(** A score holding nothing but key signatures. *)
Definition score_of_key_sigs (l : list KeySig) : Root :=
  {| Division := None; all_staves := []; all_key_sigs := l |}.

Definition key_sig (count : string) (mode_text : option string) : KeySig :=
  {| accidental := Some (Some count);
     mode := match mode_text with Some m => Some (Some m) | None => None end |}.

End KeySpec.

Module TieSpec.
Import Py XmlToMidi.

Definition total (l : list Z) : Z := foldr Z.add 0 l.

(** What [process_note] reads from a note: no pitch, a pitch, or an
    exception. *)
Definition note_pitch (n : Note) : py (option Z) :=
  match pitch_node n with
  | None => Ok None
  | Some text => let* p := int_of_node_text (Some text) in Ok (Some p)
  end.

(** The note has pitch [p] and the given tie markers. *)
Definition note_reads (p : Z) (from_prev to_next : bool) (n : Note) : Prop :=
  note_pitch n = Ok (Some p) /\ spanner_prev n = from_prev /\ spanner_next n = to_next.

(** The note is readable and is not of pitch [p]. *)
Definition note_other (p : Z) (n : Note) : Prop :=
  exists o, note_pitch n = Ok o /\ o <> Some p.

Definition note_readable (n : Note) : Prop := exists o, note_pitch n = Ok o.

(** Every note the loop would read in [e] is readable. *)
Definition element_readable (e : Element) : Prop :=
  durationType e = None \/ tag e <> "Chord" \/ Forall note_readable (notes e).

(** By how much an element moves [current_tick]. *)
Definition element_duration (division : Z) (e : Element) : Z :=
  match durationType e with
  | None => 0
  | Some duration_type =>
      if decide (tag e = "Chord" \/ tag e = "Rest")
      then base_duration division duration_type (dots e)
      else 0
  end.

(** A chord of resolved duration [d] with exactly one note of pitch [p],
    carrying the given tie markers. *)
Definition carries (division p : Z) (from_prev to_next : bool) (e : Element) (d : Z)
  : Prop :=
  tag e = "Chord" /\
  exists duration_type l1 n l2,
    durationType e = Some duration_type /\
    d = base_duration division duration_type (dots e) /\
    notes e = l1 ++ n :: l2 /\
    Forall (note_other p) l1 /\ note_reads p from_prev to_next n /\
    Forall (note_other p) l2.

(** An element without a note of pitch [p]: a skipped element, a rest or
    another tag, or a chord of other pitches. *)
Definition elem_other (p : Z) (e : Element) : Prop :=
  durationType e = None \/ tag e <> "Chord" \/ Forall (note_other p) (notes e).



Definition of_pitch (p : Z) (l : list event) : list event :=
  filter (fun e => pitch e = p) l.

(** From [st] to [st'] the events only grow, the new events of pitch [p]
    are [new], and the open tie on [p] ends as [tie']. *)
Definition grows (p : Z) (st st' : state) (new : list event) (tie' : option (Z * Z))
  : Prop :=
  exists evs, events st' = events st ++ evs /\ of_pitch p evs = new /\
              open_ties st' !! p = tie'.

(** [tie_update] seen from the pitch it works on: the events it emits and
    what becomes of that pitch's open tie [o]. *)
Definition tie_view (p duration tick : Z) (o : option (Z * Z))
    (from_prev to_next : bool) : list event * option (Z * Z) :=
  if from_prev then
    let o' := match o with Some (s, t) => Some (s, t + duration) | None => None end in
    if negb to_next then
      match o' with
      | Some (s, t) => ([note_on s p; note_off (s + t) p], None)
      | None => ([], None)
      end
    else ([], o')
  else if to_next then ([], Some (tick, duration))
  else ([note_on tick p; note_off (tick + duration) p], o).

Definition chord (duration_type : string) (ns : list Note) : Element :=
  {| tag := "Chord"; durationType := Some (Some duration_type); dots := false;
     notes := ns |}.

Definition rest (duration_type : string) : Element :=
  {| tag := "Rest"; durationType := Some (Some duration_type); dots := false;
     notes := [] |}.

Definition tied_note (pitch_text : string) (from_prev to_next : bool) : Note :=
  {| pitch_node := Some (Some pitch_text); spanner_prev := from_prev;
     spanner_next := to_next |}.

(** One measure, one voice: a half note tied to a quarter note of the same
    pitch, the chain ending there. *)
Definition half_tied_to_quarter (pitch_text : string) : Staff :=
  [ [ [chord "half" [tied_note pitch_text false true];
       chord "quarter" [tied_note pitch_text true false]] ] ].

(** A score with the given division text and staves, no key signature. *)
Definition score (division_text : string) (staves : list Staff) : Root :=
  {| Division := Some (Some division_text); all_staves := staves; all_key_sigs := [] |}.

End TieSpec.

Module TrackSpec.

(** Delta encoding of a list of absolute ticks, the cursor starting at
    [last]: every tick minus the one before it. *)
Fixpoint deltas (last : Z) (ticks : list Z) : list Z :=
  match ticks with
  | [] => []
  | t :: rest => (t - last) :: deltas t rest
  end.

(** The absolute ticks of the events [XmlToMidi.emit] sends to each track,
    in the order of the merged list. *)
Definition ticks_right (evs : list XmlToMidi.channel_event) : list Z :=
  map (fun e => XmlToMidi.tick (XmlToMidi.ev e))
      (filter (fun e => XmlToMidi.channel e = 0) evs).

Definition ticks_left (evs : list XmlToMidi.channel_event) : list Z :=
  map (fun e => XmlToMidi.tick (XmlToMidi.ev e))
      (filter (fun e => XmlToMidi.channel e <> 0) evs).

(** Where [Advanced.place] sends a timed message: notes by the split
    pitch, control and program changes to both hands. *)
Definition to_right (split : Z) (timed : Z * Mido.Message) : bool :=
  if Advanced.is_note (snd timed) then split <=? Mido.note (snd timed)
  else Advanced.is_control (snd timed).

Definition to_left (split : Z) (timed : Z * Mido.Message) : bool :=
  if Advanced.is_note (snd timed) then negb (split <=? Mido.note (snd timed))
  else Advanced.is_control (snd timed).

Definition times_right (split : Z) (evs : list (Z * Mido.Message)) : list Z :=
  map fst (filter (fun tm => to_right split tm = true) evs).

Definition times_left (split : Z) (evs : list (Z * Mido.Message)) : list Z :=
  map fst (filter (fun tm => to_left split tm = true) evs).

Definition at_tick (t p c : Z) : XmlToMidi.channel_event :=
  {| XmlToMidi.ev := XmlToMidi.note_on t p; XmlToMidi.channel := c |}.

End TrackSpec.

Module AnalysisSpec.

(** The note-on events of a file: the [note_on] messages of positive
    velocity, over all tracks in order. *)
Definition sounding (msgs : list Mido.Message) : list Mido.Message :=
  filter (fun m => Advanced.sounding_note_on m = true) msgs.

Definition note_ons (midi_file : Mido.MidiFile) : list Mido.Message :=
  sounding (concat (Mido.tracks midi_file)).

Definition channels_of (msgs : list Mido.Message) : gset Z :=
  list_to_set (map Mido.channel msgs).

Definition count_below_60 (msgs : list Mido.Message) : Z :=
  Z.of_nat (length (filter (fun m => Mido.note m < 60) msgs)).

Definition count_from_60 (msgs : list Mido.Message) : Z :=
  Z.of_nat (length (filter (fun m => 60 <= Mido.note m) msgs)).

(** The tally agrees with the note-on events of the messages seen. *)
Definition tallies (t : Advanced.tally) (seen : list Mido.Message) : Prop :=
  Advanced.t_channels_used t = channels_of (sounding seen) /\
  Advanced.t_low t = count_below_60 (sounding seen) /\
  Advanced.t_high t = count_from_60 (sounding seen) /\
  Advanced.t_all_notes t = map Mido.note (sounding seen).

(** A one-track file of [note_on] messages of velocity 90, 10 ticks
    apart, with the given (channel, pitch) pairs. *)
Definition file_of_notes (notes : list (Z * Z)) : Mido.MidiFile :=
  {| Mido.midi_type := 1; Mido.ticks_per_beat := 480;
     Mido.tracks := [map (fun cn => Mido.note_message "note_on" (snd cn) 90 10 (fst cn))
                         notes] |}.

End AnalysisSpec.

Module SplitSpec.

(** The histogram count of pitch [q]: how often it occurs. *)
Definition occurrences (q : Z) (pitches : list Z) : Z :=
  Z.of_nat (length (filter (fun n => n = q) pitches)).

(** The local density of a candidate: the histogram counts of the five
    pitches from [p - 2] to [p + 2], summed. *)
Definition local_density (pitches : list Z) (p : Z) : Z :=
  occurrences (p - 2) pitches + occurrences (p - 1) pitches + occurrences p pitches +
  occurrences (p + 1) pitches + occurrences (p + 2) pitches.

(** After the candidates [seen], the accumulator holds the first candidate
    of least density among them, and that density. *)
Definition first_least (note_counts : gmap Z Z) (seen : list Z) (acc : Z * option Z)
  : Prop :=
  match snd acc with
  | None => seen = []
  | Some m =>
      m = Advanced.density note_counts (fst acc) /\
      exists l1 l2, seen = l1 ++ fst acc :: l2 /\
        (forall c, c ∈ l1 -> m < Advanced.density note_counts c) /\
        (forall c, c ∈ l2 -> m <= Advanced.density note_counts c)
  end.

End SplitSpec.

Module AssemblySpec.

(** A list of events made of adjacent pairs: a [note_on] followed by the
    [note_off] of the same pitch, their ticks related by [ok]. *)
Inductive note_pairs (ok : Z -> Z -> Prop) : list XmlToMidi.event -> Prop :=
| pairs_nil : note_pairs ok []
| pairs_cons s e p rest :
    ok s e -> note_pairs ok rest ->
    note_pairs ok (XmlToMidi.note_on s p :: XmlToMidi.note_off e p :: rest).

(** The state of the staff loop when no duration is negative: the events are
    pairs with [0 <= on <= off], the cursor and every open tie are
    non-negative. *)
Definition well_timed (st : XmlToMidi.state) : Prop :=
  note_pairs (fun s e => 0 <= s <= e) (XmlToMidi.events st) /\
  0 <= XmlToMidi.current_tick st /\
  forall p s t, XmlToMidi.open_ties st !! p = Some (s, t) -> 0 <= s /\ 0 <= t.

(** The messages [XmlToMidi.emit] appends to one track for the events
    [evs], the track's cursor starting at [last]. *)
Fixpoint encode_events (chan last : Z) (evs : list XmlToMidi.event) : list Mido.Message :=
  match evs with
  | [] => []
  | e :: rest =>
      Mido.note_message (XmlToMidi.type e) (XmlToMidi.pitch e)
        (if decide (XmlToMidi.type e = "note_on") then 90 else 0)
        (XmlToMidi.tick e - last) chan
      :: encode_events chan (XmlToMidi.tick e) rest
  end.

(** The messages [Advanced.place] appends to one hand for the timed
    messages [evs], the hand's cursor starting at [last]. *)
Fixpoint encode_timed (chan last : Z) (evs : list (Z * Mido.Message)) : list Mido.Message :=
  match evs with
  | [] => []
  | (t, msg) :: rest =>
      Advanced.retimed chan (t - last) msg :: encode_timed chan t rest
  end.

(** What a message says, apart from when and on which channel. *)
Definition content (m : Mido.Message) : string * Z * Z * Z * Z * Z :=
  (Mido.type m, Mido.note m, Mido.velocity m, Mido.program m, Mido.control m,
   Mido.value m).

End AssemblySpec.

(** ** advanced_mscz_converter.py: metadata and the repair entry point *)

Module Metadata.
Import Py.

(** [str.lower()] on ASCII text: tag names are compared with ASCII
    literals only. *)
Definition lower_char (c : ascii) : ascii :=
  let n := nat_of_ascii c in
  if ((65 <=? n)%nat && (n <=? 90)%nat)%bool then ascii_of_nat (n + 32) else c.

Definition lower (s : string) : string :=
  string_of_list_ascii (map lower_char (list_ascii_of_string s)).

(** Truth value of a [str] or [None]. *)
Definition truthy (v : option string) : bool :=
  match v with
  | Some s => negb (String.eqb s "")
  | None => false
  end.

(** A [<metaTag>]: its [name] attribute and its text. *)
Record metaTag : Type := mkMetaTag {
  name_attr : option string;
  tag_text : option string
}.

(** An [<Instrument>]: the texts of [longName] and [shortName], and the
    [channel] attribute of the first [.//channel] below it ([None]: no such
    element, [Some None]: the element has no [channel] attribute). *)
Record Instrument : Type := mkInstrument {
  longName : option (option string);
  shortName : option (option string);
  channel_elem : option (option string)
}.

(** A [<Part>]: its [id] attribute and its first [.//Instrument]. *)
Record Part : Type := mkPart {
  id_attr : option string;
  instrument : option Instrument
}.

(** An entry of [metadata['parts']]. *)
Record part_info : Type := mkPartInfo {
  id : string;
  name : string;
  channel : Z
}.

(** The entries of the [metadata] dict these functions read or write. *)
Record metadata : Type := mkMetadata {
  title : option string;
  composer : option string;
  artist : option string;
  copyright : option string;
  subtitle : option string;
  lyricist : option string;
  parts : list part_info
}.

(** [extract_mscz_metadata]'s initial dict. *)
Definition empty_metadata : metadata :=
  {| title := None; composer := None; artist := None; copyright := None;
     subtitle := None; lyricist := None; parts := [] |}.

Definition set_title (v : option string) (m : metadata) : metadata :=
  {| title := v; composer := composer m; artist := artist m; copyright := copyright m;
     subtitle := subtitle m; lyricist := lyricist m; parts := parts m |}.

Definition set_composer (v : option string) (m : metadata) : metadata :=
  {| title := title m; composer := v; artist := artist m; copyright := copyright m;
     subtitle := subtitle m; lyricist := lyricist m; parts := parts m |}.

Definition set_artist (v : option string) (m : metadata) : metadata :=
  {| title := title m; composer := composer m; artist := v; copyright := copyright m;
     subtitle := subtitle m; lyricist := lyricist m; parts := parts m |}.

Definition set_copyright (v : option string) (m : metadata) : metadata :=
  {| title := title m; composer := composer m; artist := artist m; copyright := v;
     subtitle := subtitle m; lyricist := lyricist m; parts := parts m |}.

Definition set_subtitle (v : option string) (m : metadata) : metadata :=
  {| title := title m; composer := composer m; artist := artist m;
     copyright := copyright m; subtitle := v; lyricist := lyricist m; parts := parts m |}.

Definition set_lyricist (v : option string) (m : metadata) : metadata :=
  {| title := title m; composer := composer m; artist := artist m;
     copyright := copyright m; subtitle := subtitle m; lyricist := v; parts := parts m |}.

Definition set_parts (v : list part_info) (m : metadata) : metadata :=
  {| title := title m; composer := composer m; artist := artist m;
     copyright := copyright m; subtitle := subtitle m; lyricist := lyricist m;
     parts := v |}.

(** The body of [for meta_tag in meta_tags]. *)
Definition store_tag (m : metadata) (meta_tag : metaTag) : metadata :=
  let name := lower (default "" (name_attr meta_tag)) in
  let value := tag_text meta_tag in
  if truthy value then
    if bool_decide (name ∈ ["worktitle"; "title"]) then set_title value m
    else if bool_decide (name ∈ ["composer"]) then set_composer value m
    else if bool_decide (name ∈ ["lyricist"; "poet"]) then set_lyricist value m
    else if bool_decide (name ∈ ["copyright"]) then set_copyright value m
    else if bool_decide (name ∈ ["subtitle"]) then set_subtitle value m
    else if bool_decide (name ∈ ["artist"; "arranger"]) then set_artist value m
    else m
  else m.

(** [_extract_basic_metadata]; [meta_tags] is [root.findall('.//metaTag')]
    and [work_title] the text of [root.find('.//workTitle')], when found. *)
Definition _extract_basic_metadata (meta_tags : list metaTag)
    (work_title : option (option string)) (m : metadata) : metadata :=
  let m1 := foldl store_tag m meta_tags in
  let m2 :=
    match work_title with
    | Some text => if truthy text then set_title text m1 else m1
    | None => m1
    end in
  if negb (truthy (artist m2)) && truthy (composer m2)
  then set_artist (composer m2) m2 else m2.

(** [node is not None and node.text], then [node.text]. *)
Definition text_if_any (node : option (option string)) : option string :=
  match node with
  | Some text => if truthy text then text else None
  | None => None
  end.

(** The [part_info] of the part at index [i]; the only step that can raise
    is [int] on the [channel] attribute. *)
Definition part_entry (i : nat) (part : Part) : py part_info :=
  let name :=
    match instrument part with
    | Some ins =>
        match text_if_any (longName ins) with
        | Some long => long
        | None =>
            match text_if_any (shortName ins) with
            | Some short => short
            | None => "Piano"
            end
        end
    | None => "Piano"
    end in
  let channel_attr :=
    match instrument part with
    | Some ins => channel_elem ins
    | None => None
    end in
  let* chan :=
    match channel_attr with
    | Some (Some text) => int text
    | Some None => Ok (Z.of_nat i)
    | None => Ok (Z.of_nat i)
    end in
  Ok {| id := default ("part_" +:+ pretty i) (id_attr part); name := name;
        channel := chan |}.

(** The loop of [_extract_parts_info] from index [i]: an exception ends it
    and leaves what was appended so far. *)
Fixpoint append_parts (i : nat) (ps : list Part) (acc : list part_info)
  : list part_info :=
  match ps with
  | [] => acc
  | part :: rest =>
      match part_entry i part with
      | Ok info => append_parts (S i) rest (acc ++ [info])
      | Raise _ => acc
      end
  end.

(** [_extract_parts_info]; [ps] is [root.findall('.//Part')]. *)
Definition _extract_parts_info (ps : list Part) (m : metadata) : metadata :=
  set_parts (append_parts 0 ps (parts m)) m.

(** [analysis['split_point'] = split_note] *)
Definition with_split_point (split_note : Z) (a : Advanced.analysis) : Advanced.analysis :=
  {| Advanced.needs_separation := Advanced.needs_separation a;
     Advanced.total_tracks := Advanced.total_tracks a;
     Advanced.musical_tracks := Advanced.musical_tracks a;
     Advanced.channels_used := Advanced.channels_used a;
     Advanced.note_distribution_low := Advanced.note_distribution_low a;
     Advanced.note_distribution_high := Advanced.note_distribution_high a;
     Advanced.split_point := split_note |}.

(** [fix_existing_midi_for_smart_pianist].  [file] is what mido reads,
    [None] when the backup copy or the reading raises.  The result is the
    returned boolean and the file written over the input, if any.  With the
    empty metadata dict [_add_metadata_track] appends the track name
    'Untitled' and nothing else. *)
Definition fix_existing_midi_for_smart_pianist (file : option Mido.MidiFile)
    (split_note : Z) : bool * option Mido.MidiFile :=
  match file with
  | None => (false, None)
  | Some mid =>
      let analysis := Advanced._analyze_track_structure mid in
      if Advanced.needs_separation analysis then
        (true,
         Some (Advanced._create_separated_midi mid [Mido.track_name "Untitled"]
                 (with_split_point split_note analysis)))
      else (true, None)
  end.

End Metadata.

Module MetadataSpec.
Import Metadata.

(** The six text fields of the metadata. *)
Definition text_fields : list (metadata -> option string) :=
  [title; composer; artist; copyright; subtitle; lyricist].

(** No text field that had a value is left without one. *)
Definition keeps_values (m r : metadata) : Prop :=
  Forall (fun field => truthy (field m) = true -> truthy (field r) = true) text_fields.

(** Every text field is [None] or a non-empty string. *)
Definition no_blank_field (m : metadata) : Prop :=
  Forall (fun field => field m = None \/ truthy (field m) = true) text_fields.

(** The channel attribute of the part, if it has one, is an integer. *)
Definition channel_readable (part : Part) : Prop :=
  forall ins text, instrument part = Some ins -> channel_elem ins = Some (Some text) ->
                   exists z, Py.int text = Py.Ok z.

End MetadataSpec.

(** * Theorems *)

(** ** Key signature resolver *)

Module KeyFacts.
Import Py XmlToMidi KeySpec.

Lemma scan_skips (pre rest : list KeySig) :
  Forall skipped pre -> key_sig_scan (pre ++ rest) = key_sig_scan rest.
Proof.
  induction 1 as [|ks pre Hks _ IH]; simpl; [reflexivity|].
  unfold skipped in Hks.
  destruct (accidental ks) as [[t|]|]; try exact IH.
  rewrite Hks. exact IH.
Qed.

Lemma scan_decides (ks : KeySig) (rest : list KeySig) (t : string) :
  declares ks t ->
  key_sig_scan (ks :: rest) =
    let* fifths := int (strip t) in Ok (result_key (mode ks) fifths).
Proof.
  intros [Hacc Hne]. simpl. rewrite Hacc.
  destruct (decide (strip t = "")); [contradiction|reflexivity].
Qed.

Lemma result_key_name (mode_node : option (option string)) (f : Z) :
  result_key mode_node f = key_name f (is_minor mode_node).
Proof.
  unfold result_key, is_minor.
  destruct mode_node as [[m|]|].
  - destruct (decide (Some m = Some "minor")) as [E|N].
    + injection E as ->. rewrite bool_decide_eq_true_2 by reflexivity.
      destruct f as [|p|p]; try reflexivity;
        do 3 (try destruct p as [p|p|]); reflexivity.
    + rewrite bool_decide_eq_false_2 by congruence.
      destruct f as [|p|p]; try reflexivity;
        do 3 (try destruct p as [p|p|]); reflexivity.
  - rewrite bool_decide_eq_false_2 by congruence.
    destruct (decide (None = Some "minor")); [discriminate|].
    destruct f as [|p|p]; try reflexivity;
      do 3 (try destruct p as [p|p|]); reflexivity.
  - rewrite bool_decide_eq_false_2 by congruence.
    destruct (decide (Some "major" = Some "minor")); [discriminate|].
    destruct f as [|p|p]; try reflexivity;
      do 3 (try destruct p as [p|p|]); reflexivity.
Qed.

Lemma key_name_out_of_range (f : Z) (minor : bool) :
  ~ (-7 <= f <= 7) -> key_name f minor = "C".
Proof.
  intros H.
  destruct f as [|p|p]; [lia| |];
    do 3 (try destruct p as [p|p|]); try reflexivity; lia.
Qed.

Lemma first_declared_decides (root : Root) (pre rest : list KeySig) (ks : KeySig)
    (t : string) :
  all_key_sigs root = pre ++ ks :: rest ->
  Forall skipped pre ->
  declares ks t ->
  _get_key_signature root =
    match int (strip t) with
    | Ok f => key_name f (is_minor (mode ks))
    | Raise _ => "C"
    end.
Proof.
  intros Hroot Hpre Hks. unfold _get_key_signature.
  rewrite Hroot, (scan_skips _ _ Hpre), (scan_decides _ _ _ Hks).
  destruct (int (strip t)) as [f|e]; simpl; [apply result_key_name|reflexivity].
Qed.

Lemma nothing_declared (root : Root) :
  Forall skipped (all_key_sigs root) -> _get_key_signature root = "C".
Proof.
  intros H. unfold _get_key_signature.
  rewrite <- (app_nil_r (all_key_sigs root)), (scan_skips _ _ H). reflexivity.
Qed.

(** C4, as the code has it: a declaration with a non-blank accidental count
    that does not parse as an integer, or that lies outside -7..7, reached
    after skipping only absent or blank declarations, makes "C" the
    returned key name, whatever declarations follow: the scan ends there. *)
Theorem invalid_count_ends_scan_with_C (root : Root) (pre rest : list KeySig)
    (ks : KeySig) :
  all_key_sigs root = pre ++ ks :: rest ->
  Forall skipped pre ->
  invalid_count ks ->
  _get_key_signature root = "C".
Proof.
  intros Hroot Hpre (t & Hks & Hbad).
  rewrite (first_declared_decides root pre rest ks t Hroot Hpre Hks).
  destruct Hbad as [-> | (f & -> & Hout)]; [reflexivity|].
  now apply key_name_out_of_range.
Qed.

Lemma invalid_count_ends_scan_with_C_witness :
  _get_key_signature
    (score_of_key_sigs [key_sig "  " None; key_sig "9" None; key_sig "2" None]) = "C".
Proof.
  apply (invalid_count_ends_scan_with_C _ [key_sig "  " None] [key_sig "2" None]
           (key_sig "9" None)).
  - reflexivity.
  - repeat constructor.
  - exists "9". split; [split; [reflexivity|discriminate]|].
    right. exists 9. split; [reflexivity|lia].
Defined.

(** C4 as stated fails: after a declaration whose count 9 is out of range
    the scan does not go on to the next declaration, so the later valid
    count 2 (D major) does not determine the result. *)
Lemma scan_does_not_continue_past_invalid_count :
  invalid_count (key_sig "9" None) /\
  _get_key_signature (score_of_key_sigs [key_sig "9" None; key_sig "2" None]) = "C" /\
  _get_key_signature (score_of_key_sigs [key_sig "2" None]) = "D" /\
  _get_key_signature (score_of_key_sigs [key_sig "9" None; key_sig "2" None]) <>
    _get_key_signature (score_of_key_sigs [key_sig "2" None]).
Proof.
  split; [|split; [reflexivity|split; [reflexivity|discriminate]]].
  exists "9". split; [split; [reflexivity|discriminate]|].
  right. exists 9. split; [reflexivity|lia].
Qed.

(** The same happens after a count that is not an integer. *)
Example scan_stops_at_unparseable_count :
  int (strip "2.5") = Raise ValueError /\
  _get_key_signature (score_of_key_sigs [key_sig "2.5" None; key_sig "-1" None]) = "C" /\
  _get_key_signature (score_of_key_sigs [key_sig "-1" None]) = "F".
Proof. repeat split. Qed.

(** C9, as the code has it: declarations with an absent or blank accidental
    field are skipped and the first declaration with a non-blank one
    decides: the key name of its count and mode (major unless the mode
    text is "minor") when the count parses, "C" when it does not; "C" too
    when every declaration is skipped; a count of 2 in minor mode is
    "Bm". *)
Theorem resolve_key_first_declared :
  (forall (root : Root) (pre rest : list KeySig) (ks : KeySig) (t : string),
      all_key_sigs root = pre ++ ks :: rest ->
      Forall skipped pre ->
      declares ks t ->
      _get_key_signature root =
        match int (strip t) with
        | Ok f => key_name f (is_minor (mode ks))
        | Raise _ => "C"
        end) /\
  (forall root : Root,
      Forall skipped (all_key_sigs root) -> _get_key_signature root = "C") /\
  (forall (root : Root) (pre rest : list KeySig),
      all_key_sigs root = pre ++ key_sig "2" (Some "minor") :: rest ->
      Forall skipped pre ->
      _get_key_signature root = "Bm").
Proof.
  split; [exact first_declared_decides|split; [exact nothing_declared|]].
  intros root pre rest Hroot Hpre.
  rewrite (first_declared_decides root pre rest _ "2" Hroot Hpre); [reflexivity|].
  split; [reflexivity|discriminate].
Qed.

Lemma resolve_key_first_declared_witness :
  _get_key_signature
    (score_of_key_sigs
       [key_sig " " None; {| accidental := None; mode := None |};
        key_sig "-3" (Some "minor"); key_sig "4" None]) = "Cm" /\
  _get_key_signature
    (score_of_key_sigs [{| accidental := Some None; mode := None |}]) = "C" /\
  _get_key_signature
    (score_of_key_sigs [key_sig "" None; key_sig "2" (Some "minor")]) = "Bm".
Proof.
  destruct resolve_key_first_declared as (Hfirst & Hnone & Hbm).
  split; [|split].
  - rewrite (Hfirst _ [key_sig " " None; {| accidental := None; mode := None |}]
               [key_sig "4" None] (key_sig "-3" (Some "minor")) "-3").
    + reflexivity.
    + reflexivity.
    + repeat constructor.
    + split; [reflexivity|discriminate].
  - apply Hnone. repeat constructor.
  - apply (Hbm _ [key_sig "" None] []); [reflexivity|repeat constructor].
Defined.

(** C9 as stated fails: in the scan below the first declaration with a
    present, parseable count is the second one (2, major: "D"), yet the
    unparseable first one already ends the scan with "C". *)
Lemma first_parseable_count_does_not_decide :
  int (strip "x") = Raise ValueError /\
  int (strip "2") = Ok 2 /\
  key_name 2 (is_minor None) = "D" /\
  _get_key_signature (score_of_key_sigs [key_sig "x" None; key_sig "2" None]) = "C" /\
  _get_key_signature (score_of_key_sigs [key_sig "x" None; key_sig "2" None]) <>
    key_name 2 (is_minor None).
Proof.
  repeat split; try reflexivity. discriminate.
Qed.

End KeyFacts.

(** ** Tie chain assembler *)

Module TieFacts.
Import Py XmlToMidi TieSpec.

Lemma for_each_app {S A} (body : S -> A -> py S) (l1 l2 : list A) (st : S) :
  for_each body (l1 ++ l2) st = bind (for_each body l1 st) (for_each body l2).
Proof.
  revert st. induction l1 as [|x l1 IH]; intros st; simpl; [reflexivity|].
  destruct (body st x); simpl; [apply IH|reflexivity].
Qed.

Lemma for_each_concat {S A} (body : S -> A -> py S) (ls : list (list A)) (st : S) :
  for_each (fun st l => for_each body l st) ls st = for_each body (concat ls) st.
Proof.
  revert st. induction ls as [|l ls IH]; intros st; simpl; [reflexivity|].
  rewrite for_each_app. destruct (for_each body l st); simpl; [apply IH|reflexivity].
Qed.

(** The three nested loops are one loop over the elements of the staff in
    document order: neither the cursor nor the open ties are reset at a
    voice or measure boundary. *)
Lemma staff_is_one_voice (division : Z) (staff : Staff) (st : state) :
  for_each (process_measure division) staff st =
  process_voice division st (concat (concat staff)).
Proof.
  unfold process_voice.
  rewrite <- for_each_concat, <- for_each_concat. reflexivity.
Qed.

Lemma grows_refl (p : Z) (st : state) : grows p st st [] (open_ties st !! p).
Proof. exists []. rewrite app_nil_r. repeat split. Qed.

Lemma grows_trans (p : Z) (st1 st2 st3 : state) (a b : list event)
    (o2 o3 : option (Z * Z)) :
  grows p st1 st2 a o2 -> grows p st2 st3 b o3 -> grows p st1 st3 (a ++ b) o3.
Proof.
  intros (e1 & H1 & F1 & _) (e2 & H2 & F2 & T2).
  exists (e1 ++ e2). rewrite H2, H1, app_assoc. repeat split; [|exact T2].
  unfold of_pitch in *. rewrite filter_app, F1, F2. reflexivity.
Qed.

Lemma grows_tie (p : Z) (st st' : state) (a : list event) (o : option (Z * Z)) :
  grows p st st' a o -> open_ties st' !! p = o.
Proof. intros (e & _ & _ & H). exact H. Qed.

Lemma grows_advance (p : Z) (d : Z) (st st' : state) (a : list event)
    (o : option (Z * Z)) :
  grows p st st' a o -> grows p st (advance d st') a o.
Proof. intros H. exact H. Qed.

Lemma tie_update_tick (d : Z) (st : state) (q : Z) (a b : bool) :
  current_tick (tie_update d st q a b) = current_tick st.
Proof.
  unfold tie_update.
  destruct a, b; simpl; try reflexivity.
  destruct (open_ties st !! q) as [[s t]|] eqn:E.
  - rewrite lookup_insert_eq. reflexivity.
  - rewrite E. reflexivity.
Qed.

Lemma of_pitch_other (p q : Z) (t1 t2 : Z) :
  q <> p -> of_pitch p [note_on t1 q; note_off t2 q] = [].
Proof.
  intros H. unfold of_pitch.
  rewrite filter_cons_False by (simpl; exact H).
  rewrite filter_cons_False by (simpl; exact H). reflexivity.
Qed.

Lemma of_pitch_same (p : Z) (t1 t2 : Z) :
  of_pitch p [note_on t1 p; note_off t2 p] = [note_on t1 p; note_off t2 p].
Proof.
  unfold of_pitch.
  rewrite filter_cons_True by reflexivity.
  rewrite filter_cons_True by reflexivity. reflexivity.
Qed.

(** A note of another pitch leaves the view of [p] alone. *)
Lemma tie_update_other (p d : Z) (st : state) (q : Z) (a b : bool) :
  q <> p -> grows p st (tie_update d st q a b) [] (open_ties st !! p).
Proof.
  intros Hq. unfold tie_update, grows.
  destruct a, b; simpl.
  - exists []. rewrite app_nil_r. repeat split.
    destruct (open_ties st !! q) as [[s t]|]; [|reflexivity].
    now rewrite lookup_insert_ne.
  - destruct (open_ties st !! q) as [[s t]|] eqn:E.
    + rewrite lookup_insert_eq. simpl. eexists. split; [reflexivity|].
      split; [now apply of_pitch_other|].
      rewrite lookup_delete_ne by exact Hq. now rewrite lookup_insert_ne.
    + rewrite E. simpl. exists []. rewrite app_nil_r. repeat split.
  - exists []. rewrite app_nil_r. repeat split. now rewrite lookup_insert_ne.
  - eexists. split; [reflexivity|]. split; [now apply of_pitch_other|reflexivity].
Qed.

(** A note of pitch [p] changes the view of [p] as [tie_view] says. *)
Lemma tie_update_same (p d : Z) (st : state) (a b : bool) :
  grows p st (tie_update d st p a b)
    (fst (tie_view p d (current_tick st) (open_ties st !! p) a b))
    (snd (tie_view p d (current_tick st) (open_ties st !! p) a b)).
Proof.
  unfold tie_update, tie_view, grows.
  destruct a, b; simpl.
  - exists []. rewrite app_nil_r. repeat split.
    destruct (open_ties st !! p) as [[s t]|] eqn:E; [|exact E].
    now rewrite lookup_insert_eq.
  - destruct (open_ties st !! p) as [[s t]|] eqn:E.
    + rewrite lookup_insert_eq. simpl. eexists. split; [reflexivity|].
      split; [apply of_pitch_same|]. now rewrite lookup_delete_eq.
    + rewrite E. simpl. exists []. rewrite app_nil_r. repeat split. exact E.
  - exists []. rewrite app_nil_r. repeat split. now rewrite lookup_insert_eq.
  - eexists. split; [reflexivity|]. split; [apply of_pitch_same|reflexivity].
Qed.

Lemma process_note_pitch (d : Z) (st : state) (n : Note) :
  process_note d st n =
    match note_pitch n with
    | Ok (Some q) => Ok (tie_update d st q (spanner_prev n) (spanner_next n))
    | Ok None => Ok st
    | Raise e => Raise e
    end.
Proof.
  unfold process_note, note_pitch.
  destruct (pitch_node n) as [text|]; [|reflexivity].
  destruct (int_of_node_text (Some text)); reflexivity.
Qed.

Lemma process_note_other (p d : Z) (st : state) (n : Note) :
  note_other p n ->
  exists st', process_note d st n = Ok st' /\
              grows p st st' [] (open_ties st !! p) /\
              current_tick st' = current_tick st.
Proof.
  intros (o & Ho & Hne). rewrite process_note_pitch, Ho.
  destruct o as [q|].
  - eexists. split; [reflexivity|]. split.
    + apply tie_update_other. congruence.
    + apply tie_update_tick.
  - exists st. split; [reflexivity|]. split; [apply grows_refl|reflexivity].
Qed.

Lemma notes_other (p d : Z) (l : list Note) :
  Forall (note_other p) l ->
  forall st, exists st', for_each (process_note d) l st = Ok st' /\
                         grows p st st' [] (open_ties st !! p) /\
                         current_tick st' = current_tick st.
Proof.
  induction 1 as [|n l Hn _ IH]; intros st; simpl.
  - exists st. split; [reflexivity|]. split; [apply grows_refl|reflexivity].
  - destruct (process_note_other p d st n Hn) as (st1 & -> & G1 & T1). simpl.
    destruct (IH st1) as (st2 & -> & G2 & T2).
    exists st2. split; [reflexivity|]. split; [|congruence].
    pose proof (grows_trans _ _ _ _ _ _ _ _ G1 G2) as G.
    rewrite (grows_tie _ _ _ _ _ G1) in G. exact G.
Qed.


Lemma carries_run (division p : Z) (a b : bool) (e : Element) (d : Z) (st : state) :
  carries division p a b e d ->
  exists st', process_element division st e = Ok st' /\
    grows p st st'
      (fst (tie_view p d (current_tick st) (open_ties st !! p) a b))
      (snd (tie_view p d (current_tick st) (open_ties st !! p) a b)) /\
    current_tick st' = current_tick st + d.
Proof.
  intros (Htag & dt & l1 & n & l2 & Hdt & -> & Hnotes & H1 & (Hp & Ha & Hb) & H2).
  unfold process_element. rewrite Hdt.
  destruct (decide (tag e = "Chord")) as [_|N]; [|contradiction].
  set (d := base_duration division dt (dots e)).
  rewrite Hnotes, for_each_app.
  destruct (notes_other p d l1 H1 st) as (st1 & -> & G1 & T1). simpl.
  rewrite process_note_pitch, Hp, Ha, Hb. simpl.
  set (st2 := tie_update d st1 p a b).
  destruct (notes_other p d l2 H2 st2) as (st3 & -> & G3 & T3). simpl.
  exists (advance d st3). split; [reflexivity|]. split.
  - apply grows_advance.
    pose proof (tie_update_same p d st1 a b) as G2. fold st2 in G2.
    rewrite T1, (grows_tie _ _ _ _ _ G1) in G2.
    rewrite (grows_tie _ _ _ _ _ G2) in G3.
    pose proof (grows_trans _ _ _ _ _ _ _ _ G1 (grows_trans _ _ _ _ _ _ _ _ G2 G3)) as G.
    simpl in G. rewrite app_nil_r in G. exact G.
  - simpl. rewrite T3. unfold st2. rewrite tie_update_tick, T1. reflexivity.
Qed.

Lemma elem_other_run (division p : Z) (e : Element) (st : state) :
  elem_other p e ->
  exists st', process_element division st e = Ok st' /\
    grows p st st' [] (open_ties st !! p) /\
    current_tick st' = current_tick st + element_duration division e.
Proof.
  intros H. unfold elem_other in H. unfold process_element, element_duration.
  destruct (durationType e) as [dt|].
  2:{ exists st. split; [reflexivity|]. split; [apply grows_refl|lia]. }
  destruct (decide (tag e = "Chord")) as [C|NC].
  - destruct H as [H|[H|H]]; [discriminate|contradiction|].
    destruct (notes_other p (base_duration division dt (dots e)) _ H st)
      as (st1 & -> & G1 & T1). simpl.
    eexists. split; [reflexivity|]. split; [now apply grows_advance|].
    destruct (decide (tag e = "Chord" \/ tag e = "Rest")) as [_|N].
    + simpl. now rewrite T1.
    + exfalso. apply N. now left.
  - destruct (decide (tag e = "Rest")) as [R|NR].
    + eexists. split; [reflexivity|]. split; [apply grows_advance, grows_refl|].
      destruct (decide (tag e = "Chord" \/ tag e = "Rest")) as [_|N].
      * reflexivity.
      * exfalso. apply N. now right.
    + exists st. split; [reflexivity|]. split; [apply grows_refl|].
      destruct (decide (tag e = "Chord" \/ tag e = "Rest")) as [[?|?]|_];
        [contradiction|contradiction|lia].
Qed.



Lemma notes_readable_run (d : Z) (l : list Note) :
  Forall note_readable l ->
  forall st, exists st' evs, for_each (process_note d) l st = Ok st' /\
                             events st' = events st ++ evs /\
                             current_tick st' = current_tick st.
Proof.
  induction 1 as [|n l [o Hn] _ IH]; intros st; simpl.
  - exists st, []. now rewrite app_nil_r.
  - rewrite process_note_pitch, Hn.
    assert (exists st1 e1, match o with
              | Some q => Ok (tie_update d st q (spanner_prev n) (spanner_next n))
              | None => Ok st
              end = Ok st1 /\ events st1 = events st ++ e1 /\
              current_tick st1 = current_tick st) as (st1 & e1 & -> & E1 & T1).
    { destruct o as [q|].
      - destruct (tie_update_same q d st (spanner_prev n) (spanner_next n))
          as (e1 & E1 & _).
        eexists _, e1. split; [reflexivity|]. split; [exact E1|apply tie_update_tick].
      - exists st, []. now rewrite app_nil_r. }
    simpl. destruct (IH st1) as (st2 & e2 & -> & E2 & T2).
    exists st2, (e1 ++ e2). rewrite E2, E1, app_assoc. repeat split. congruence.
Qed.

(** Readable elements never raise, and only append events. *)
Lemma readable_run (division : Z) (els : list Element) :
  Forall element_readable els ->
  forall st, exists st' evs, process_voice division st els = Ok st' /\
                             events st' = events st ++ evs.
Proof.
  unfold process_voice.
  induction 1 as [|e els He _ IH]; intros st; simpl.
  - exists st, []. now rewrite app_nil_r.
  - assert (exists st1 e1, process_element division st e = Ok st1 /\
              events st1 = events st ++ e1) as (st1 & e1 & -> & E1).
    { unfold element_readable in He. unfold process_element.
      destruct (durationType e) as [dt|].
      2:{ exists st, []. now rewrite app_nil_r. }
      destruct (decide (tag e = "Chord")) as [C|NC].
      - destruct He as [He|[He|He]]; [discriminate|contradiction|].
        destruct (notes_readable_run (base_duration division dt (dots e)) _ He st)
          as (st1 & e1 & -> & E1 & _).
        simpl. eexists _, e1. split; [reflexivity|exact E1].
      - destruct (decide (tag e = "Rest")).
        + eexists _, []. split; [reflexivity|]. simpl. now rewrite app_nil_r.
        + exists st, []. now rewrite app_nil_r. }
    simpl. destruct (IH st1) as (st2 & e2 & -> & E2).
    exists st2, (e1 ++ e2). rewrite E2, E1, app_assoc. split; reflexivity.
Qed.

Lemma notes_keep_tick (d : Z) (l : list Note) :
  forall st st', for_each (process_note d) l st = Ok st' ->
                 current_tick st' = current_tick st.
Proof.
  induction l as [|n l IH]; intros st st' H; simpl in H.
  - now injection H as <-.
  - rewrite process_note_pitch in H.
    destruct (note_pitch n) as [[q|]|]; simpl in H; try discriminate.
    + rewrite (IH _ _ H). apply tie_update_tick.
    + exact (IH _ _ H).
Qed.



(** C2, as the code has it: with division 480 a half note tied to a
    quarter note of the same pitch gives one [note_on] at tick 0 and one
    [note_off] at tick 1440 (960 for the half note plus 480 for the
    quarter). *)
Theorem half_tied_to_quarter_ends_at_1440 (pitch_text : string) (p : Z) :
  int pitch_text = Ok p ->
  get_note_events_from_staff
    (score "480" [half_tied_to_quarter pitch_text]) (half_tied_to_quarter pitch_text)
  = Ok [note_on 0 p; note_off 1440 p].
Proof.
  intros Hp.
  unfold get_note_events_from_staff, process_measure, process_voice. simpl.
  unfold process_element. simpl. unfold process_note. simpl. rewrite Hp. simpl.
  unfold tie_update. simpl.
  rewrite lookup_insert_eq, lookup_insert_eq. simpl.
  repeat f_equal.
Qed.

Lemma half_tied_to_quarter_ends_at_1440_witness :
  get_note_events_from_staff
    (score "480" [half_tied_to_quarter "60"]) (half_tied_to_quarter "60")
  = Ok [note_on 0 60; note_off 1440 60].
Proof.
  apply (half_tied_to_quarter_ends_at_1440 "60" 60); reflexivity.
Defined.

(** C2 as stated fails: the [note_off] of the half-plus-quarter chain is
    at tick 1440, not 720. *)
Lemma half_tied_to_quarter_not_720 :
  get_note_events_from_staff
    (score "480" [half_tied_to_quarter "60"]) (half_tied_to_quarter "60")
  <> Ok [note_on 0 60; note_off 720 60].
Proof. vm_compute. discriminate. Qed.

(** C10. A chord note marked as tied from the previous note whose pitch
    has no open tie when the loop reaches it leaves the events and the
    open ties as they are and raises nothing, and the chord still moves
    the cursor forward by its resolved duration. *)
Theorem dangling_tied_note_is_dropped (division : Z) (e : Element)
    (duration_type : option string) (l1 l2 : list Note) (n : Note) (p : Z)
    (st st1 : state) :
  tag e = "Chord" ->
  durationType e = Some duration_type ->
  notes e = l1 ++ n :: l2 ->
  for_each (process_note (base_duration division duration_type (dots e))) l1 st
    = Ok st1 ->
  note_pitch n = Ok (Some p) ->
  spanner_prev n = true ->
  open_ties st1 !! p = None ->
  Forall note_readable l2 ->
  process_note (base_duration division duration_type (dots e)) st1 n = Ok st1 /\
  exists st',
    process_element division st e = Ok st' /\
    current_tick st' =
      current_tick st + base_duration division duration_type (dots e).
Proof.
  intros Htag Hdt Hnotes H1 Hp Hprev Hopen H2.
  set (d := base_duration division duration_type (dots e)) in *.
  assert (Hdrop : process_note d st1 n = Ok st1).
  { rewrite process_note_pitch, Hp, Hprev. unfold tie_update. rewrite Hopen.
    destruct (spanner_next n); simpl; rewrite ?Hopen; destruct st1; reflexivity. }
  split; [exact Hdrop|].
  destruct (notes_readable_run d l2 H2 st1) as (st3 & evs & H3 & _ & T3).
  exists (advance d st3). split.
  - unfold process_element. rewrite Hdt.
    destruct (decide (tag e = "Chord")) as [_|N]; [|contradiction].
    fold d. rewrite Hnotes, for_each_app, H1. simpl. rewrite Hdrop. simpl.
    rewrite H3. reflexivity.
  - simpl. rewrite T3, (notes_keep_tick d l1 st st1 H1). reflexivity.
Qed.

Lemma dangling_tied_note_is_dropped_witness :
  process_note 480
    {| events := [note_on 0 64; note_off 480 64]; current_tick := 0; open_ties := ∅ |}
    (tied_note "60" true false)
  = Ok {| events := [note_on 0 64; note_off 480 64]; current_tick := 0;
          open_ties := ∅ |} /\
  exists st',
    process_element 480 initial_state
      (chord "quarter" [tied_note "64" false false; tied_note "60" true false;
                        tied_note "67" false true]) = Ok st' /\
    current_tick st' = 0 + 480.
Proof.
  apply (dangling_tied_note_is_dropped 480
           (chord "quarter" [tied_note "64" false false; tied_note "60" true false;
                             tied_note "67" false true])
           (Some "quarter") [tied_note "64" false false] [tied_note "67" false true]
           (tied_note "60" true false) 60 initial_state).
  - reflexivity.
  - reflexivity.
  - reflexivity.
  - reflexivity.
  - reflexivity.
  - reflexivity.
  - reflexivity.
  - constructor; [|constructor]. exists (Some 67). reflexivity.
Defined.

End TieFacts.

(** ** Track assembler *)

Module TrackFacts.
Import TrackSpec.

(** Summing the deltas gives the absolute ticks back. *)
Lemma absolute_ticks_deltas (track : list Mido.Message) :
  forall (t0 : Z) (ticks : list Z),
    map Mido.time track = deltas t0 ticks ->
    Mido.absolute_ticks t0 track = ticks.
Proof.
  induction track as [|m track IH]; intros t0 [|t ticks] H; simpl in *;
    try discriminate; [reflexivity|].
  injection H as Hm Hrest.
  replace (t0 + Mido.time m) with t by lia.
  now rewrite (IH t ticks Hrest).
Qed.

Section Xml.
Import XmlToMidi.

(** The loop of [convert], from any cursors: each track receives the
    deltas of its own ticks, counted from its own cursor. *)
Lemma emit_fold (evs : list channel_event) :
  forall c : cursors,
    let c' := foldl emit c evs in
    map Mido.time (right_track c') =
      map Mido.time (right_track c) ++ deltas (last_tick_right c) (ticks_right evs) /\
    map Mido.time (left_track c') =
      map Mido.time (left_track c) ++ deltas (last_tick_left c) (ticks_left evs).
Proof.
  unfold ticks_right, ticks_left.
  induction evs as [|e evs IH]; intros c; simpl.
  - now rewrite !app_nil_r.
  - destruct (IH (emit c e)) as [IHr IHl]. rewrite IHr, IHl. clear IH IHr IHl.
    unfold emit. rewrite !filter_cons.
    destruct (decide (channel e = 0)) as [E|N].
    + destruct (decide (channel e <> 0)); [contradiction|]. simpl.
      rewrite map_app, <- app_assoc. split; reflexivity.
    + destruct (decide (channel e <> 0)); [|contradiction]. simpl.
      rewrite map_app, <- app_assoc. split; reflexivity.
Qed.
End Xml.

Section Adv.
Import Advanced.

Lemma place_fold (split : Z) (evs : list (Z * Mido.Message)) :
  forall h : hands,
    let h' := foldl (place split) h evs in
    map Mido.time (right_hand_track h') =
      map Mido.time (right_hand_track h) ++
      deltas (right_last_time h) (times_right split evs) /\
    map Mido.time (left_hand_track h') =
      map Mido.time (left_hand_track h) ++
      deltas (left_last_time h) (times_left split evs).
Proof.
  unfold times_right, times_left.
  induction evs as [|[t msg] evs IH]; intros h.
  - simpl. now rewrite !app_nil_r.
  - change (foldl (place split) h ((t, msg) :: evs))
      with (foldl (place split) (place split h (t, msg)) evs).
    cbv zeta.
    destruct (IH (place split h (t, msg))) as [IHr IHl]. rewrite IHr, IHl.
    clear IH IHr IHl.
    unfold place. rewrite !filter_cons. unfold to_right, to_left. simpl.
    destruct (is_note msg).
    + destruct (split <=? Mido.note msg); simpl.
      * destruct (decide (true = true)); [|contradiction].
        destruct (decide (false = true)); [discriminate|]. simpl.
        rewrite map_app, <- app_assoc. split; reflexivity.
      * destruct (decide (true = true)); [|contradiction].
        destruct (decide (false = true)); [discriminate|]. simpl.
        rewrite map_app, <- app_assoc. split; reflexivity.
    + destruct (is_control msg); simpl.
      * destruct (decide (true = true)); [|contradiction]. simpl.
        rewrite !map_app, <- !app_assoc. split; reflexivity.
      * destruct (decide (false = true)); [discriminate|]. split; reflexivity.
Qed.
End Adv.

(** C3. In both track assemblers every output track carries the delta
    encoding of the absolute ticks of the events routed to it, counted
    from that track's own cursor, so the running sum of the delta times up
    to any message is that message's absolute tick (the header messages
    sit at tick 0).  This holds for every event list, the sorted merged
    list in particular.  Two events at the same tick on different channels
    each get their delta from their own channel's last emitted tick. *)
Theorem per_channel_cursors :
  (forall (key : string) (evs : list XmlToMidi.channel_event),
      let c := XmlToMidi.assemble_tracks key evs in
      map Mido.time (XmlToMidi.right_track c) = deltas 0 ([0; 0; 0] ++ ticks_right evs) /\
      map Mido.time (XmlToMidi.left_track c) = deltas 0 ([0; 0; 0] ++ ticks_left evs) /\
      Mido.absolute_ticks 0 (XmlToMidi.right_track c) = [0; 0; 0] ++ ticks_right evs /\
      Mido.absolute_ticks 0 (XmlToMidi.left_track c) = [0; 0; 0] ++ ticks_left evs) /\
  (forall (split : Z) (evs : list (Z * Mido.Message)),
      let h := Advanced.separate_hands split evs in
      map Mido.time (Advanced.right_hand_track h) =
        deltas 0 ([0; 0] ++ times_right split evs) /\
      map Mido.time (Advanced.left_hand_track h) =
        deltas 0 ([0; 0] ++ times_left split evs) /\
      Mido.absolute_ticks 0 (Advanced.right_hand_track h) =
        [0; 0] ++ times_right split evs /\
      Mido.absolute_ticks 0 (Advanced.left_hand_track h) =
        [0; 0] ++ times_left split evs) /\
  (forall (c : XmlToMidi.cursors) (e0 e1 : XmlToMidi.channel_event),
      XmlToMidi.channel e0 = 0 ->
      XmlToMidi.channel e1 <> 0 ->
      XmlToMidi.tick (XmlToMidi.ev e0) = XmlToMidi.tick (XmlToMidi.ev e1) ->
      let c' := foldl XmlToMidi.emit c [e0; e1] in
      map Mido.time (XmlToMidi.right_track c') =
        map Mido.time (XmlToMidi.right_track c) ++
        [XmlToMidi.tick (XmlToMidi.ev e0) - XmlToMidi.last_tick_right c] /\
      map Mido.time (XmlToMidi.left_track c') =
        map Mido.time (XmlToMidi.left_track c) ++
        [XmlToMidi.tick (XmlToMidi.ev e1) - XmlToMidi.last_tick_left c]).
Proof.
  split; [|split].
  - intros key evs c.
    destruct (emit_fold evs
                {| XmlToMidi.right_track := XmlToMidi.track_header "Mano Derecha" key 0;
                   XmlToMidi.left_track := XmlToMidi.track_header "Mano Izquierda" key 1;
                   XmlToMidi.last_tick_right := 0;
                   XmlToMidi.last_tick_left := 0 |}) as [Hr Hl].
    fold (XmlToMidi.assemble_tracks key evs) in Hr, Hl. fold c in Hr, Hl.
    simpl in Hr, Hl.
    assert (Hr' : map Mido.time (XmlToMidi.right_track c) =
                  deltas 0 ([0; 0; 0] ++ ticks_right evs)) by exact Hr.
    assert (Hl' : map Mido.time (XmlToMidi.left_track c) =
                  deltas 0 ([0; 0; 0] ++ ticks_left evs)) by exact Hl.
    repeat split; try assumption; now apply absolute_ticks_deltas.
  - intros split evs h.
    destruct (place_fold split evs
                {| Advanced.right_hand_track :=
                     [Mido.track_name "Mano Derecha"; Mido.program_change 0 0];
                   Advanced.left_hand_track :=
                     [Mido.track_name "Mano Izquierda"; Mido.program_change 1 0];
                   Advanced.right_last_time := 0;
                   Advanced.left_last_time := 0 |}) as [Hr Hl].
    fold (Advanced.separate_hands split evs) in Hr, Hl. fold h in Hr, Hl.
    simpl in Hr, Hl.
    assert (Hr' : map Mido.time (Advanced.right_hand_track h) =
                  deltas 0 ([0; 0] ++ times_right split evs)) by exact Hr.
    assert (Hl' : map Mido.time (Advanced.left_hand_track h) =
                  deltas 0 ([0; 0] ++ times_left split evs)) by exact Hl.
    repeat split; try assumption; now apply absolute_ticks_deltas.
  - intros c e0 e1 H0 H1 _ c'. subst c'. simpl. unfold XmlToMidi.emit.
    destruct (decide (XmlToMidi.channel e0 = 0)); [|contradiction].
    destruct (decide (XmlToMidi.channel e1 = 0)); [contradiction|]. simpl.
    rewrite !map_app. split; reflexivity.
Qed.

Lemma per_channel_cursors_witness :
  let c := XmlToMidi.assemble_tracks "C" [at_tick 0 72 0; at_tick 480 40 1] in
  let c' := foldl XmlToMidi.emit c [at_tick 960 74 0; at_tick 960 43 1] in
  map Mido.time (XmlToMidi.right_track c') = [0; 0; 0; 0] ++ [960 - 0] /\
  map Mido.time (XmlToMidi.left_track c') = [0; 0; 0; 480] ++ [960 - 480].
Proof.
  destruct per_channel_cursors as (_ & _ & H).
  apply (H (XmlToMidi.assemble_tracks "C" [at_tick 0 72 0; at_tick 480 40 1])
           (at_tick 960 74 0) (at_tick 960 43 1)).
  - reflexivity.
  - discriminate.
  - reflexivity.
Defined.

End TrackFacts.

(** ** Too few sources *)

Module SourceFacts.
Import Py.


(** A Division text that is not an integer is the one case in which a
    score with too few staves does not return False: [int] raises
    [ValueError], which [convert] does not catch. *)
Example non_integer_division_raises :
  XmlToMidi.convert
    (Some {| XmlToMidi.Division := Some (Some "abc"); XmlToMidi.all_staves := [];
             XmlToMidi.all_key_sigs := [] |}) = XmlToMidi.Raises ValueError.
Proof. reflexivity. Qed.


End SourceFacts.

(** ** needs_separation *)

Module AnalysisFacts.
Import Advanced AnalysisSpec.

Lemma sounding_app (l1 l2 : list Mido.Message) :
  sounding (l1 ++ l2) = sounding l1 ++ sounding l2.
Proof. apply filter_app. Qed.

Lemma tallies_message (t : tally) (b : bool) (seen : list Mido.Message)
    (msg : Mido.Message) :
  tallies t seen -> tallies (fst (tally_message (t, b) msg)) (seen ++ [msg]).
Proof.
  intros (Hc & Hl & Hh & Hn). unfold tallies, tally_message.
  rewrite sounding_app. unfold sounding at 2 4 6 8.
  rewrite filter_cons, filter_nil.
  destruct (sounding_note_on msg) eqn:E; simpl.
  - destruct (decide (true = true)); [|contradiction].
    unfold channels_of, count_below_60, count_from_60.
    rewrite !map_app, !filter_app, !length_app, list_to_set_app_L. simpl.
    rewrite !filter_cons, !filter_nil.
    rewrite Hc, Hl, Hh, Hn. unfold channels_of, count_below_60, count_from_60.
    repeat split.
    + now rewrite union_empty_r_L.
    + destruct (Z.ltb_spec (Mido.note msg) 60).
      * destruct (decide (Mido.note msg < 60)); [simpl; lia|contradiction].
      * destruct (decide (Mido.note msg < 60)); [lia|simpl; lia].
    + destruct (Z.ltb_spec (Mido.note msg) 60).
      * destruct (decide (60 <= Mido.note msg)); [lia|simpl; lia].
      * destruct (decide (60 <= Mido.note msg)); [simpl; lia|contradiction].
  - destruct (decide (false = true)); [discriminate|].
    rewrite app_nil_r. repeat split; assumption.
Qed.

Lemma tallies_messages (track : list Mido.Message) :
  forall (t : tally) (b : bool) (seen : list Mido.Message),
    tallies t seen ->
    tallies (fst (foldl tally_message (t, b) track)) (seen ++ track).
Proof.
  induction track as [|msg track IH]; intros t b seen H; simpl.
  - now rewrite app_nil_r.
  - replace (seen ++ msg :: track) with ((seen ++ [msg]) ++ track)
      by now rewrite <- app_assoc.
    destruct (tally_message (t, b) msg) as [t1 b1] eqn:E.
    apply IH. pose proof (tallies_message t b seen msg H) as H1.
    now rewrite E in H1.
Qed.

Lemma tallies_track (t : tally) (seen track : list Mido.Message) :
  tallies t seen -> tallies (tally_track t track) (seen ++ track).
Proof.
  intros H. unfold tally_track.
  pose proof (tallies_messages track t false seen H) as H1.
  destruct (foldl tally_message (t, false) track) as [t' has_notes].
  destruct has_notes; exact H1.
Qed.

Lemma tallies_tracks (tracks : list (list Mido.Message)) :
  forall (t : tally) (seen : list Mido.Message),
    tallies t seen -> tallies (foldl tally_track t tracks) (seen ++ concat tracks).
Proof.
  induction tracks as [|track tracks IH]; intros t seen H; simpl.
  - now rewrite app_nil_r.
  - rewrite app_assoc. apply IH. now apply tallies_track.
Qed.

Lemma tally_file_spec (midi_file : Mido.MidiFile) :
  tallies (tally_file midi_file) (concat (Mido.tracks midi_file)).
Proof.
  unfold tally_file.
  apply (tallies_tracks (Mido.tracks midi_file) _ []).
  repeat split.
Qed.

(** C7. [needs_separation] is true exactly when the note-on events of the
    input use at most one channel, more than 5 of them have a pitch below
    60 and more than 5 a pitch of 60 or above.  With two or more channels
    it is false and the split point stays at its default 60: the split
    heuristic is not run.  When it is true the split point is the one the
    heuristic computes from the pitches of the note-on events. *)
Theorem needs_separation_iff (midi_file : Mido.MidiFile) :
  let a := _analyze_track_structure midi_file in
  let ons := note_ons midi_file in
  (needs_separation a = true <->
     (size (channels_of ons) <= 1)%nat /\
     5 < count_below_60 ons /\ 5 < count_from_60 ons) /\
  ((2 <= size (channels_of ons))%nat ->
     needs_separation a = false /\ split_point a = 60) /\
  (needs_separation a = true ->
     split_point a = _calculate_optimal_split (map Mido.note ons)).
Proof.
  intros a ons.
  destruct (tally_file_spec midi_file) as (Hc & Hl & Hh & Hn).
  fold (note_ons midi_file) in Hc, Hl, Hh, Hn. fold ons in Hc, Hl, Hh, Hn.
  unfold a, _analyze_track_structure. simpl.
  rewrite Hc, Hl, Hh, Hn.
  split; [|split].
  - rewrite !andb_true_iff, bool_decide_eq_true, !Z.ltb_lt. tauto.
  - intros H2. rewrite bool_decide_eq_false_2 by lia. split; reflexivity.
  - intros ->. reflexivity.
Qed.

Lemma needs_separation_iff_witness :
  needs_separation
    (_analyze_track_structure
       (file_of_notes [(0, 40); (0, 42); (0, 43); (0, 45); (0, 47); (0, 48);
                       (1, 64); (0, 65); (0, 67); (0, 69); (0, 71); (0, 72)])) = false /\
  split_point
    (_analyze_track_structure
       (file_of_notes [(0, 40); (0, 42); (0, 43); (0, 45); (0, 47); (0, 48);
                       (1, 64); (0, 65); (0, 67); (0, 69); (0, 71); (0, 72)])) = 60.
Proof.
  apply (needs_separation_iff
           (file_of_notes [(0, 40); (0, 42); (0, 43); (0, 45); (0, 47); (0, 48);
                           (1, 64); (0, 65); (0, 67); (0, 69); (0, 71); (0, 72)])).
  vm_compute. lia.
Defined.

End AnalysisFacts.

(** ** Hand-split heuristic *)

Module SplitFacts.
Import Advanced SplitSpec.

Lemma elem_of_range (a b c : Z) : c ∈ range a b <-> a <= c < b.
Proof.
  unfold range. rewrite list_elem_of_fmap. split.
  - intros (i & -> & Hi). apply elem_of_seq in Hi. lia.
  - intros H. exists (Z.to_nat (c - a)). split; [lia|].
    apply elem_of_seq. lia.
Qed.

(** [range] is strictly ascending: whatever comes before an element is
    smaller, whatever comes after is larger. *)
Lemma range_split (a b r : Z) (l1 l2 : list Z) :
  range a b = l1 ++ r :: l2 ->
  (forall c, c ∈ l1 -> c < r) /\ (forall c, c ∈ l2 -> r < c).
Proof.
  unfold range. intros H.
  assert (Hr : r = a + Z.of_nat (length l1)).
  { assert (L : (l1 ++ r :: l2) !! length l1 = Some r)
      by now rewrite lookup_app_r, Nat.sub_diag by lia.
    rewrite <- H, list_lookup_fmap in L.
    destruct (seq 0 (Z.to_nat (b - a)) !! length l1) as [k|] eqn:E; [|discriminate].
    apply lookup_seq in E. simpl in L. injection L as <-. lia. }
  split; intros c Hc; apply list_elem_of_lookup in Hc as [i Hi].
  - assert (L : (l1 ++ r :: l2) !! i = Some c) by now apply lookup_app_l_Some.
    pose proof (lookup_lt_Some _ _ _ Hi) as Hlt.
    rewrite <- H, list_lookup_fmap in L.
    destruct (seq 0 (Z.to_nat (b - a)) !! i) as [k|] eqn:E; [|discriminate].
    apply lookup_seq in E. simpl in L. injection L as <-. lia.
  - assert (L : (l1 ++ r :: l2) !! (length l1 + S i)%nat = Some c).
    { rewrite lookup_app_r by lia.
      replace (length l1 + S i - length l1)%nat with (S i) by lia. exact Hi. }
    rewrite <- H, list_lookup_fmap in L.
    destruct (seq 0 (Z.to_nat (b - a)) !! (length l1 + S i)%nat) as [k|] eqn:E;
      [|discriminate].
    apply lookup_seq in E. simpl in L. injection L as <-. lia.
Qed.

Lemma count_notes_fold (q : Z) (pitches : list Z) :
  forall m : gmap Z Z,
    default 0
      (foldl (fun note_counts note =>
                <[note := default 0 (note_counts !! note) + 1]> note_counts) m pitches
       !! q)
    = default 0 (m !! q) + occurrences q pitches.
Proof.
  unfold occurrences.
  induction pitches as [|n pitches IH]; intros m; simpl; [lia|].
  rewrite IH, filter_cons. destruct (decide (n = q)) as [->|N].
  - rewrite lookup_insert_eq. simpl. lia.
  - rewrite lookup_insert_ne by exact N. lia.
Qed.

(** [note_counts.get(q, 0)] is the number of occurrences of [q]. *)
Lemma count_notes_spec (q : Z) (pitches : list Z) :
  default 0 (count_notes pitches !! q) = occurrences q pitches.
Proof.
  unfold count_notes. rewrite count_notes_fold, lookup_empty. simpl. lia.
Qed.

Lemma density_spec (pitches : list Z) (c : Z) :
  density (count_notes pitches) c = local_density pitches c.
Proof.
  unfold density, local_density, range.
  replace (c + 3 - (c - 2)) with 5 by lia. simpl.
  rewrite !count_notes_spec.
  replace (c - 2 + Z.of_nat 0) with (c - 2) by lia.
  replace (c - 2 + Z.of_nat 1) with (c - 1) by lia.
  replace (c - 2 + Z.of_nat 2) with c by lia.
  replace (c - 2 + Z.of_nat 3) with (c + 1) by lia.
  replace (c - 2 + Z.of_nat 4) with (c + 2) by lia.
  lia.
Qed.

Lemma first_least_step (nc : gmap Z Z) (seen : list Z) (acc : Z * option Z) (c : Z) :
  first_least nc seen acc -> first_least nc (seen ++ [c]) (consider nc acc c).
Proof.
  unfold first_least, consider. destruct acc as [best [m|]]; simpl.
  - intros (Hm & l1 & l2 & Hseen & H1 & H2).
    destruct (Z.ltb_spec (density nc c) m) as [Hlt|Hge]; simpl.
    + split; [reflexivity|]. exists seen, []. split; [reflexivity|]. split.
      * intros c' Hc'. rewrite Hseen in Hc'.
        apply elem_of_app in Hc' as [Hc'|Hc'].
        -- specialize (H1 c' Hc'). lia.
        -- apply elem_of_cons in Hc' as [->|Hc'].
           ++ lia.
           ++ specialize (H2 c' Hc'). lia.
      * intros c' Hc'. inversion Hc'.
    + split; [exact Hm|]. exists l1, (l2 ++ [c]). split.
      * rewrite Hseen, <- app_assoc. reflexivity.
      * split; [exact H1|]. intros c' Hc'.
        apply elem_of_app in Hc' as [Hc'|Hc'].
        -- now apply H2.
        -- apply list_elem_of_singleton in Hc' as ->. lia.
  - intros ->. split; [reflexivity|]. exists [], []. split; [reflexivity|].
    split; intros c' Hc'; inversion Hc'.
Qed.

Lemma first_least_fold (nc : gmap Z Z) (cs : list Z) :
  forall (seen : list Z) (acc : Z * option Z),
    first_least nc seen acc ->
    first_least nc (seen ++ cs) (foldl (consider nc) acc cs).
Proof.
  induction cs as [|c cs IH]; intros seen acc H; simpl.
  - now rewrite app_nil_r.
  - replace (seen ++ c :: cs) with ((seen ++ [c]) ++ cs) by now rewrite <- app_assoc.
    apply IH. now apply first_least_step.
Qed.

(** The scan over a non-empty ascending range ends on its first candidate
    of least density. *)
Lemma scan_finds_first_least (nc : gmap Z Z) (a b : Z) :
  a <= b ->
  let r := fst (foldl (consider nc) (60, None) (range a (b + 1))) in
  a <= r <= b /\
  forall c, a <= c <= b ->
    density nc r <= density nc c /\ (c < r -> density nc r < density nc c).
Proof.
  intros Hab r.
  assert (H : first_least nc ([] ++ range a (b + 1))
                (foldl (consider nc) (60, None) (range a (b + 1))))
    by (apply first_least_fold; reflexivity).
  simpl in H. unfold first_least in H. fold r in H.
  destruct (snd (foldl (consider nc) (60, None) (range a (b + 1)))) as [m|].
  - destruct H as (-> & l1 & l2 & Hrange & H1 & H2).
    destruct (range_split _ _ _ _ _ Hrange) as [Hbefore Hafter].
    assert (Hr : r ∈ range a (b + 1))
      by (rewrite Hrange; apply elem_of_app; right; left).
    apply elem_of_range in Hr. split; [lia|].
    intros c Hc.
    assert (Hin : c ∈ range a (b + 1)) by (apply elem_of_range; lia).
    rewrite Hrange in Hin. apply elem_of_app in Hin as [Hin|Hin].
    + specialize (H1 c Hin). split; lia.
    + apply elem_of_cons in Hin as [->|Hin].
      * split; lia.
      * specialize (H2 c Hin). specialize (Hafter c Hin). split; lia.
  - exfalso. assert (Hin : a ∈ range a (b + 1)) by (apply elem_of_range; lia).
    rewrite H in Hin. inversion Hin.
Qed.

Lemma range_empty (a b : Z) : b <= a -> range a b = [].
Proof. intros H. unfold range. now replace (Z.to_nat (b - a)) with 0%nat by lia. Qed.

Lemma foldl_min_least (rest : list Z) :
  forall x, foldl Z.min x rest ∈ x :: rest /\
            forall n, n ∈ x :: rest -> foldl Z.min x rest <= n.
Proof.
  induction rest as [|y rest IH]; intros x; simpl.
  - split; [left|]. intros n Hn. apply list_elem_of_singleton in Hn. lia.
  - destruct (IH (Z.min x y)) as [Hin Hle]. split.
    + apply elem_of_cons in Hin as [Hin|Hin]; [|now right; right].
      rewrite Hin. destruct (Z.min_spec x y) as [[_ ->]|[_ ->]]; [left|right; left].
    + intros n Hn.
      assert (Hmin : foldl Z.min (Z.min x y) rest <= Z.min x y) by (apply Hle; left).
      apply elem_of_cons in Hn as [->|Hn]; [lia|].
      apply elem_of_cons in Hn as [->|Hn]; [lia|].
      apply Hle. now right.
Qed.

Lemma foldl_max_greatest (rest : list Z) :
  forall x, foldl Z.max x rest ∈ x :: rest /\
            forall n, n ∈ x :: rest -> n <= foldl Z.max x rest.
Proof.
  induction rest as [|y rest IH]; intros x; simpl.
  - split; [left|]. intros n Hn. apply list_elem_of_singleton in Hn. lia.
  - destruct (IH (Z.max x y)) as [Hin Hle]. split.
    + apply elem_of_cons in Hin as [Hin|Hin]; [|now right; right].
      rewrite Hin. destruct (Z.max_spec x y) as [[_ ->]|[_ ->]]; [right; left|left].
    + intros n Hn.
      assert (Hmax : Z.max x y <= foldl Z.max (Z.max x y) rest) by (apply Hle; left).
      apply elem_of_cons in Hn as [->|Hn]; [lia|].
      apply elem_of_cons in Hn as [->|Hn]; [lia|].
      apply Hle. now right.
Qed.

(** [py_min] and [py_max] are the least and the greatest pitch. *)
Lemma py_min_is (pitches : list Z) (lo : Z) :
  lo ∈ pitches -> (forall n, n ∈ pitches -> lo <= n) -> py_min pitches = lo.
Proof.
  intros Hin Hle. destruct pitches as [|x rest]; [inversion Hin|].
  destruct (foldl_min_least rest x) as [Hm Hl]. simpl.
  specialize (Hl lo Hin). specialize (Hle _ Hm). lia.
Qed.

Lemma py_max_is (pitches : list Z) (hi : Z) :
  hi ∈ pitches -> (forall n, n ∈ pitches -> n <= hi) -> py_max pitches = hi.
Proof.
  intros Hin Hle. destruct pitches as [|x rest]; [inversion Hin|].
  destruct (foldl_max_greatest rest x) as [Hm Hl]. simpl.
  specialize (Hl hi Hin). specialize (Hle _ Hm). lia.
Qed.

Lemma split_unfold (pitches : list Z) :
  pitches <> [] ->
  _calculate_optimal_split pitches =
    fst (foldl (consider (count_notes pitches)) (60, None)
               (range (search_start pitches) (search_end pitches + 1))).
Proof. destruct pitches; [contradiction|reflexivity]. Qed.

Lemma least_density_in_range (pitches : list Z) (lo hi : Z) :
  lo ∈ pitches -> (forall n, n ∈ pitches -> lo <= n) ->
  hi ∈ pitches -> (forall n, n ∈ pitches -> n <= hi) ->
  Z.max 48 lo <= Z.min 72 hi ->
  Z.max 48 lo <= _calculate_optimal_split pitches <= Z.min 72 hi /\
  forall c, Z.max 48 lo <= c <= Z.min 72 hi ->
    density (count_notes pitches) (_calculate_optimal_split pitches)
      <= density (count_notes pitches) c /\
    (c < _calculate_optimal_split pitches ->
     density (count_notes pitches) (_calculate_optimal_split pitches)
       < density (count_notes pitches) c).
Proof.
  intros Hlo Hlo' Hhi Hhi' Hrange.
  rewrite split_unfold by (intros ->; inversion Hlo).
  unfold search_start, search_end.
  rewrite (py_min_is pitches lo Hlo Hlo'), (py_max_is pitches hi Hhi Hhi').
  exact (scan_finds_first_least (count_notes pitches) _ _ Hrange).
Qed.

(** C8. When the candidate range [max(48, min) .. min(72, max)] is not
    empty, the heuristic returns a candidate of that range whose local
    density is least, and strictly less than that of every lower
    candidate: the first one met in ascending order wins ties. *)
Theorem sparsest_candidate (pitches : list Z) (lo hi : Z) :
  lo ∈ pitches -> (forall n, n ∈ pitches -> lo <= n) ->
  hi ∈ pitches -> (forall n, n ∈ pitches -> n <= hi) ->
  Z.max 48 lo <= Z.min 72 hi ->
  let r := _calculate_optimal_split pitches in
  Z.max 48 lo <= r <= Z.min 72 hi /\
  forall c, Z.max 48 lo <= c <= Z.min 72 hi ->
    local_density pitches r <= local_density pitches c /\
    (c < r -> local_density pitches r < local_density pitches c).
Proof.
  intros Hlo Hlo' Hhi Hhi' Hrange r. subst r.
  destruct (least_density_in_range pitches lo hi Hlo Hlo' Hhi Hhi' Hrange)
    as [Hin Hleast].
  split; [exact Hin|].
  intros c Hc. rewrite <- !density_spec. now apply Hleast.
Qed.

Lemma sparsest_candidate_witness :
  let pitches := [50; 50; 60; 61; 62; 63; 64; 65; 66] in
  let r := _calculate_optimal_split pitches in
  Z.max 48 50 <= r <= Z.min 72 66 /\
  forall c, Z.max 48 50 <= c <= Z.min 72 66 ->
    local_density pitches r <= local_density pitches c /\
    (c < r -> local_density pitches r < local_density pitches c).
Proof.
  apply (sparsest_candidate [50; 50; 60; 61; 62; 63; 64; 65; 66] 50 66).
  - left.
  - intros n Hn. repeat (apply elem_of_cons in Hn as [->|Hn]; [lia|]). inversion Hn.
  - repeat first [left | right].
  - intros n Hn. repeat (apply elem_of_cons in Hn as [->|Hn]; [lia|]). inversion Hn.
  - vm_compute. discriminate.
Defined.

(** C5, as the code has it: 60 for no pitches; otherwise a value in
    [48, 72], which also lies between the least and the greatest pitch
    when the greatest is at least 48 and the least at most 72, and is the
    default 60 when all pitches are below 48 or all are above 72. *)
Theorem split_within_window :
  _calculate_optimal_split [] = 60 /\
  forall (pitches : list Z) (lo hi : Z),
    lo ∈ pitches -> (forall n, n ∈ pitches -> lo <= n) ->
    hi ∈ pitches -> (forall n, n ∈ pitches -> n <= hi) ->
    let r := _calculate_optimal_split pitches in
    48 <= r <= 72 /\
    (48 <= hi /\ lo <= 72 -> lo <= r <= hi) /\
    (hi < 48 \/ 72 < lo -> r = 60).
Proof.
  split; [reflexivity|].
  intros pitches lo hi Hlo Hlo' Hhi Hhi' r.
  assert (Hlohi : lo <= hi) by now apply Hlo'.
  destruct (Z_le_gt_dec (Z.max 48 lo) (Z.min 72 hi)) as [Hne|Hempty].
  - destruct (least_density_in_range pitches lo hi Hlo Hlo' Hhi Hhi' Hne) as [Hr _].
    fold r in Hr. split; [lia|]. split; [lia|]. intros [H|H]; lia.
  - assert (Hr : r = 60).
    { subst r. rewrite split_unfold by (intros ->; inversion Hlo).
      unfold search_start, search_end.
      rewrite (py_min_is pitches lo Hlo Hlo'), (py_max_is pitches hi Hhi Hhi').
      rewrite range_empty by lia. reflexivity. }
    rewrite Hr. split; [lia|]. split; [lia|]. reflexivity.
Qed.

Lemma split_within_window_witness :
  let r := _calculate_optimal_split [40; 45; 52; 64; 71; 76] in
  48 <= r <= 72 /\ (48 <= 76 /\ 40 <= 72 -> 40 <= r <= 76) /\
  (76 < 48 \/ 72 < 40 -> r = 60).
Proof.
  destruct split_within_window as [_ H].
  apply (H [40; 45; 52; 64; 71; 76] 40 76).
  - left.
  - intros n Hn. repeat (apply elem_of_cons in Hn as [->|Hn]; [lia|]). inversion Hn.
  - repeat first [left | right].
  - intros n Hn. repeat (apply elem_of_cons in Hn as [->|Hn]; [lia|]). inversion Hn.
Defined.

(** C5 as stated fails: for the single pitch 40 the result is the default
    60, which is not between the least and the greatest pitch. *)
Lemma split_outside_pitch_range :
  py_min [40] = 40 /\ py_max [40] = 40 /\
  _calculate_optimal_split [40] = 60 /\
  ~ (py_min [40] <= _calculate_optimal_split [40] <= py_max [40]).
Proof. vm_compute. repeat split; try reflexivity. intros [_ H]. now apply H. Qed.

End SplitFacts.

(** ** Duration resolver *)

Module DurationFacts.
Import Py XmlToMidi.

Lemma duration_map_unfold (d : Z) :
  duration_map d =
  <["breve" := d * 2]> (<["black" := d]> (<["whole" := d * 4]> (<["half" := d * 2]>
  (<["quarter" := d]> (<["eighth" := d / 2]> (<["16th" := d / 4]> (<["32nd" := d / 8]>
  (<["64th" := d / 16]> (<["measure" := d * 2]> ∅))))))))).
Proof.
  unfold duration_map. cbn [list_to_map foldr uncurry fst snd].
  set (m := <["whole" := d * 4]> _).
  assert (Hmeasure : m !!! "measure" = d * 2).
  { unfold m, lookup_total, map_lookup_total. rewrite !lookup_insert.
    repeat (case_decide; [discriminate|]). case_decide; [reflexivity|contradiction]. }
  assert (Hquarter : m !!! "quarter" = d).
  { unfold m, lookup_total, map_lookup_total. rewrite !lookup_insert.
    repeat (case_decide; [discriminate|]). case_decide; [reflexivity|contradiction]. }
  now rewrite Hmeasure, Hquarter.
Qed.

(** Every entry of the table is one of seven multiples or floored fractions
    of the division. *)
Lemma duration_map_values (d : Z) (t : string) (v : Z) :
  duration_map d !! t = Some v ->
  v ∈ [d * 4; d * 2; d; d / 2; d / 4; d / 8; d / 16].
Proof.
  rewrite duration_map_unfold, !lookup_insert, lookup_empty.
  repeat case_decide; intros Hv; try discriminate; injection Hv as <-;
    repeat first [left | right].
Qed.

Lemma base_duration_nonneg (d : Z) (t : option string) (dotted : bool) :
  0 <= d -> 0 <= base_duration d t dotted.
Proof.
  intros Hd. unfold base_duration.
  assert (Hbase : 0 <= match t with
                       | Some t0 => default 0 (duration_map d !! t0)
                       | None => 0
                       end).
  { destruct t as [t|]; [|lia].
    destruct (duration_map d !! t) as [v|] eqn:E; simpl; [|lia].
    apply duration_map_values in E.
    repeat (apply elem_of_cons in E as [->|E]; [try lia; apply Z.div_pos; lia|]).
    inversion E. }
  destruct dotted; [|exact Hbase].
  apply Z.quot_pos; lia.
Qed.



End DurationFacts.

(** ** Staff loop: shape of the events, silent ties, errors *)

Module StaffFacts.
Import Py XmlToMidi TieSpec AssemblySpec.

Lemma for_each_invariant {S A} (body : S -> A -> py S) (I : S -> Prop) :
  (forall st x st', I st -> body st x = Ok st' -> I st') ->
  forall (l : list A) (st st' : S),
    I st -> for_each body l st = Ok st' -> I st'.
Proof.
  intros Hbody. induction l as [|x l IH]; intros st st' Hst H; simpl in H.
  - now injection H as <-.
  - destruct (body st x) as [st1|] eqn:E; simpl in H; [|discriminate].
    exact (IH st1 st' (Hbody st x st1 Hst E) H).
Qed.

Lemma note_pairs_app (ok : Z -> Z -> Prop) (l1 l2 : list event) :
  note_pairs ok l1 -> note_pairs ok l2 -> note_pairs ok (l1 ++ l2).
Proof.
  induction 1 as [|s e p rest Hok _ IH]; intros H2; simpl; [exact H2|].
  constructor; [exact Hok|now apply IH].
Qed.

Lemma note_pairs_snoc (ok : Z -> Z -> Prop) (l : list event) (s e p : Z) :
  note_pairs ok l -> ok s e -> note_pairs ok (l ++ [note_on s p; note_off e p]).
Proof.
  intros Hl Hok. apply note_pairs_app; [exact Hl|]. now repeat constructor.
Qed.

(** One note keeps the state well timed when its duration is not
    negative. *)
Lemma tie_update_well_timed (d : Z) (st : state) (q : Z) (a b : bool) :
  0 <= d -> well_timed st -> well_timed (tie_update d st q a b).
Proof.
  intros Hd (Hev & Htick & Hties). unfold tie_update, well_timed.
  destruct a.
  - destruct (open_ties st !! q) as [[s t]|] eqn:E.
    + destruct (Hties q s t E) as [Hs Ht].
      destruct b; simpl.
      * split; [exact Hev|]. split; [exact Htick|].
        intros p s' t' H. rewrite lookup_insert in H. case_decide.
        -- injection H as <- <-. lia.
        -- exact (Hties _ _ _ H).
      * rewrite lookup_insert_eq. simpl. split; [|split; [exact Htick|]].
        -- apply note_pairs_snoc; [exact Hev|lia].
        -- intros p s' t' H. rewrite lookup_delete in H. case_decide; [discriminate|].
           rewrite lookup_insert_ne in H by congruence. exact (Hties _ _ _ H).
    + destruct b; simpl; [exact (conj Hev (conj Htick Hties))|].
      rewrite E. exact (conj Hev (conj Htick Hties)).
  - destruct b; simpl.
    + split; [exact Hev|]. split; [exact Htick|].
      intros p s t H. rewrite lookup_insert in H. case_decide.
      * injection H as <- <-. lia.
      * exact (Hties _ _ _ H).
    + split; [|split; assumption]. apply note_pairs_snoc; [exact Hev|lia].
Qed.

Lemma tie_update_pairs (d : Z) (st : state) (q : Z) (a b : bool) :
  note_pairs (fun _ _ => True) (events st) ->
  note_pairs (fun _ _ => True) (events (tie_update d st q a b)).
Proof.
  intros Hev. unfold tie_update.
  destruct a.
  - destruct b; simpl; [exact Hev|].
    destruct (_ !! q) as [[s t]|]; simpl; [|exact Hev].
    now apply note_pairs_snoc.
  - destruct b; simpl; [exact Hev|]. now apply note_pairs_snoc.
Qed.

Lemma process_element_invariant (I : state -> Prop) (division : Z) :
  (forall d st q a b, (0 <= division -> 0 <= d) -> I st -> I (tie_update d st q a b)) ->
  (forall d st, (0 <= division -> 0 <= d) -> I st -> I (advance d st)) ->
  forall st e st', I st -> process_element division st e = Ok st' -> I st'.
Proof.
  intros Hnote Hadv st e st' Hst H. unfold process_element in H.
  destruct (durationType e) as [dt|]; [|now injection H as <-].
  assert (Hd : 0 <= division -> 0 <= base_duration division dt (dots e))
    by apply DurationFacts.base_duration_nonneg.
  destruct (decide (tag e = "Chord")).
  - destruct (for_each _ (notes e) st) as [st1|] eqn:E; simpl in H; [|discriminate].
    injection H as <-. apply Hadv; [exact Hd|].
    revert E. apply for_each_invariant; [|exact Hst].
    intros s0 n s1 Hs0 Hn. rewrite TieFacts.process_note_pitch in Hn.
    destruct (note_pitch n) as [[q|]|]; try discriminate; injection Hn as <-;
      [now apply Hnote|exact Hs0].
  - destruct (decide (tag e = "Rest")); injection H as <-; [now apply Hadv|exact Hst].
Qed.

Lemma staff_invariant (I : state -> Prop) (root : Root) (staff : Staff) (division : Z)
    (evs : list event) :
  int_of_node_text (Division root) = Ok division ->
  (forall d st q a b, (0 <= division -> 0 <= d) -> I st -> I (tie_update d st q a b)) ->
  (forall d st, (0 <= division -> 0 <= d) -> I st -> I (advance d st)) ->
  I initial_state ->
  get_note_events_from_staff root staff = Ok evs ->
  exists st, I st /\ events st = evs.
Proof.
  intros Hdiv Hnote Hadv Hinit H. unfold get_note_events_from_staff in H.
  rewrite Hdiv in H. simpl in H. rewrite TieFacts.staff_is_one_voice in H.
  destruct (process_voice division initial_state (concat (concat staff))) as [st|] eqn:E;
    simpl in H; [|discriminate].
  injection H as <-. exists st. split; [|reflexivity].
  revert E. unfold process_voice. apply for_each_invariant; [|exact Hinit].
  intros s0 e s1. now apply process_element_invariant.
Qed.

Lemma staff_events_shape (root : Root) (staff : Staff) (division : Z)
    (evs : list event) :
  int_of_node_text (Division root) = Ok division ->
  get_note_events_from_staff root staff = Ok evs ->
  note_pairs (fun _ _ => True) evs /\
  (0 <= division -> note_pairs (fun s e => 0 <= s <= e) evs).
Proof.
  intros Hdiv H. split.
  - assert (exists st, note_pairs (fun _ _ => True) (events st) /\ events st = evs)
      as (st & Hst & <-); [|exact Hst].
    apply (staff_invariant (fun st => note_pairs (fun _ _ => True) (events st))
             root staff division evs Hdiv); [| |constructor|exact H].
    + intros. now apply tie_update_pairs.
    + intros. assumption.
  - intros Hpos.
    assert (exists st, well_timed st /\ events st = evs)
      as (st & Hst & <-); [|exact (proj1 Hst)].
    apply (staff_invariant well_timed root staff division evs Hdiv); [| | |exact H].
    + intros d st q a b Hd. apply tie_update_well_timed. now apply Hd.
    + intros d st Hd (Hev & Htick & Hties). specialize (Hd Hpos).
      split; [exact Hev|]. split; [simpl; lia|exact Hties].
    + split; [constructor|]. split; [simpl; lia|]. intros p s t E.
      simpl in E. now rewrite lookup_empty in E.
Qed.

(** X2. The events of a staff are adjacent pairs, a [note_on] followed at
    once by the [note_off] of the same pitch; when the division is not
    negative every [note_on] is at a tick [>= 0] and its [note_off] is not
    before it. *)
Theorem events_are_note_pairs (root : Root) (staff : Staff) (division : Z)
    (evs : list event) :
  int_of_node_text (Division root) = Ok division ->
  get_note_events_from_staff root staff = Ok evs ->
  note_pairs (fun _ _ => True) evs /\
  (0 <= division -> note_pairs (fun s e => 0 <= s <= e) evs).
Proof. exact (staff_events_shape root staff division evs). Qed.

Lemma events_are_note_pairs_witness :
  note_pairs (fun _ _ => True) [note_on 0 60; note_off 1440 60] /\
  (0 <= 480 -> note_pairs (fun s e => 0 <= s <= e) [note_on 0 60; note_off 1440 60]).
Proof.
  apply (events_are_note_pairs (score "480" []) (half_tied_to_quarter "60") 480);
    reflexivity.
Defined.

Lemma others_run (division p : Z) (els : list Element) :
  Forall (elem_other p) els ->
  forall st, exists st', process_voice division st els = Ok st' /\
                         grows p st st' [] (open_ties st !! p).
Proof.
  unfold process_voice.
  induction 1 as [|e els He _ IH]; intros st; simpl.
  - exists st. split; [reflexivity|apply TieFacts.grows_refl].
  - destruct (TieFacts.elem_other_run division p e st He) as (st1 & -> & G1 & _). simpl.
    destruct (IH st1) as (st2 & -> & G2).
    exists st2. split; [reflexivity|].
    pose proof (TieFacts.grows_trans _ _ _ _ _ _ _ _ G1 G2) as G.
    now rewrite (TieFacts.grows_tie _ _ _ _ _ G1) in G.
Qed.

(** X3. A tie that is opened and never continued or closed is silent: when
    a note of pitch [p] is marked as tied to the next note and no later
    element of the staff has a note of pitch [p], the staff has no event of
    pitch [p] from that note on. *)
Theorem unclosed_tie_is_silent (root : Root) (staff : Staff) (division p d : Z)
    (pre post : list Element) (e : Element) (st1 : state) :
  int_of_node_text (Division root) = Ok division ->
  concat (concat staff) = pre ++ e :: post ->
  process_voice division initial_state pre = Ok st1 ->
  carries division p false true e d ->
  Forall (elem_other p) post ->
  exists evs, get_note_events_from_staff root staff = Ok (events st1 ++ evs) /\
              of_pitch p evs = [].
Proof.
  intros Hdiv Hflat Hpre He Hpost.
  destruct (TieFacts.carries_run division p false true e d st1 He) as (st2 & H2 & G2 & _).
  destruct (others_run division p post Hpost st2) as (st3 & H3 & G3).
  destruct (TieFacts.grows_trans _ _ _ _ _ _ _ _ G2 G3) as (evs & E & F & _).
  exists evs. split; [|exact F].
  unfold get_note_events_from_staff. rewrite Hdiv. simpl.
  rewrite TieFacts.staff_is_one_voice, Hflat. unfold process_voice in *.
  rewrite TieFacts.for_each_app, Hpre. simpl. rewrite H2. simpl. rewrite H3. simpl.
  now rewrite E.
Qed.

Lemma unclosed_tie_is_silent_witness :
  exists evs,
    get_note_events_from_staff (score "480" [])
      [ [ [chord "quarter" [tied_note "64" false false]];
          [chord "half" [tied_note "60" false true; tied_note "67" false false];
           rest "quarter"; chord "quarter" [tied_note "62" false false]] ] ]
    = Ok ([note_on 0 64; note_off 480 64] ++ evs) /\
    of_pitch 60 evs = [].
Proof.
  apply (unclosed_tie_is_silent _ _ 480 60 960
           [chord "quarter" [tied_note "64" false false]]
           [rest "quarter"; chord "quarter" [tied_note "62" false false]]
           (chord "half" [tied_note "60" false true; tied_note "67" false false])
           {| events := [note_on 0 64; note_off 480 64]; current_tick := 480;
              open_ties := ∅ |}).
  - reflexivity.
  - reflexivity.
  - reflexivity.
  - split; [reflexivity|].
    exists (Some "half"), [], (tied_note "60" false true), [tied_note "67" false false].
    repeat split; try reflexivity; [constructor|].
    constructor; [|constructor]. exists (Some 67). split; [reflexivity|discriminate].
  - constructor; [right; left; discriminate|].
    constructor; [|constructor]. right; right.
    constructor; [|constructor]. exists (Some 62). split; [reflexivity|discriminate].
Defined.

(** X4. Measure and voice boundaries do not matter: two staves with the
    same elements in document order give the same result.  The cursor is
    not reset between voices, so the second voice of a measure is laid
    after the first, not on top of it. *)
Theorem voices_are_laid_end_to_end (root : Root) (staff staff' : Staff) :
  concat (concat staff) = concat (concat staff') ->
  get_note_events_from_staff root staff = get_note_events_from_staff root staff'.
Proof.
  intros H. unfold get_note_events_from_staff.
  destruct (int_of_node_text (Division root)) as [division|]; simpl; [|reflexivity].
  now rewrite !TieFacts.staff_is_one_voice, H.
Qed.

Lemma voices_are_laid_end_to_end_witness :
  get_note_events_from_staff (score "480" [])
    [ [ [chord "half" [tied_note "72" false false]];
        [chord "half" [tied_note "48" false false]] ] ]
  = get_note_events_from_staff (score "480" [])
    [ [ [chord "half" [tied_note "72" false false];
         chord "half" [tied_note "48" false false]] ] ].
Proof. apply voices_are_laid_end_to_end. reflexivity. Defined.

(** X5. A pitch text that is not an integer is fatal: when the loop reaches
    a chord (with a duration type) that has a note whose pitch cannot be
    read, [get_note_events_from_staff] raises that exception, and so does
    [convert] when the staff is the first one of at least two. *)
Theorem unreadable_pitch_raises (root : Root) (staff : Staff) (division : Z)
    (pre post : list Element) (e : Element) (duration_type : option string)
    (l1 l2 : list Note) (n : Note) (err : exn) :
  int_of_node_text (Division root) = Ok division ->
  concat (concat staff) = pre ++ e :: post ->
  Forall element_readable pre ->
  tag e = "Chord" ->
  durationType e = Some duration_type ->
  notes e = l1 ++ n :: l2 ->
  Forall note_readable l1 ->
  note_pitch n = Raise err ->
  get_note_events_from_staff root staff = Raise err /\
  (forall staff1 others, all_staves root = staff :: staff1 :: others ->
                         convert (Some root) = Raises err).
Proof.
  intros Hdiv Hflat Hpre Htag Hdt Hnotes Hl1 Hn.
  assert (H : get_note_events_from_staff root staff = Raise err).
  { unfold get_note_events_from_staff. rewrite Hdiv. simpl.
    rewrite TieFacts.staff_is_one_voice, Hflat. unfold process_voice.
    rewrite TieFacts.for_each_app.
    destruct (TieFacts.readable_run division pre Hpre initial_state) as (st1 & _ & H1 & _).
    unfold process_voice in H1. rewrite H1. simpl.
    unfold process_element. rewrite Hdt.
    destruct (decide (tag e = "Chord")); [|contradiction].
    rewrite Hnotes, TieFacts.for_each_app.
    destruct (TieFacts.notes_readable_run (base_duration division duration_type (dots e))
                l1 Hl1 st1) as (st2 & _ & -> & _).
    simpl. rewrite TieFacts.process_note_pitch, Hn. reflexivity. }
  split; [exact H|].
  intros staff1 others Hstaves. unfold convert. rewrite Hdiv, Hstaves, H. reflexivity.
Qed.

Lemma unreadable_pitch_raises_witness :
  get_note_events_from_staff
    (score "480" [ [ [ [rest "quarter"; chord "quarter" [tied_note "C4" false false]] ] ];
                   [] ])
    [ [ [rest "quarter"; chord "quarter" [tied_note "C4" false false]] ] ]
  = Raise ValueError /\
  convert
    (Some (score "480"
             [ [ [ [rest "quarter"; chord "quarter" [tied_note "C4" false false]] ] ];
               [] ]))
  = Raises ValueError.
Proof.
  destruct (unreadable_pitch_raises
              (score "480"
                 [ [ [ [rest "quarter"; chord "quarter" [tied_note "C4" false false]] ] ];
                   [] ])
              [ [ [rest "quarter"; chord "quarter" [tied_note "C4" false false]] ] ]
              480 [rest "quarter"] []
              (chord "quarter" [tied_note "C4" false false]) (Some "quarter")
              [] [] (tied_note "C4" false false) ValueError) as [H1 H2].
  - reflexivity.
  - reflexivity.
  - constructor; [right; left; discriminate|constructor].
  - reflexivity.
  - reflexivity.
  - reflexivity.
  - constructor.
  - reflexivity.
  - split; [exact H1|]. apply (H2 [] []). reflexivity.
Defined.

End StaffFacts.

(** ** The stable sort *)

Module SortFacts.

Section Sorting.
Context {A : Type} (key : A -> Z).

Lemma insert_by_perm (x : A) (l : list A) : insert_by key x l ≡ₚ x :: l.
Proof.
  induction l as [|y l IH]; simpl; [reflexivity|].
  destruct (key x <=? key y); [reflexivity|].
  rewrite IH. apply Permutation_swap.
Qed.

Lemma sort_by_perm (l : list A) : sort_by key l ≡ₚ l.
Proof.
  induction l as [|x l IH]; simpl; [reflexivity|].
  unfold sort_by in *. simpl. now rewrite insert_by_perm, IH.
Qed.

Lemma insert_by_sorted (x : A) (l : list A) :
  StronglySorted Z.le (map key l) ->
  StronglySorted Z.le (map key (insert_by key x l)).
Proof.
  induction l as [|y l IH]; intros Hs; simpl.
  - repeat constructor.
  - apply StronglySorted_inv in Hs as [Hl Hy].
    destruct (Z.leb_spec (key x) (key y)) as [Hle|Hgt]; simpl.
    + constructor; [constructor; assumption|].
      constructor; [exact Hle|].
      eapply Forall_impl; [exact Hy|]. simpl. intros z Hz. lia.
    + constructor; [now apply IH|].
      assert (Hperm : map key (insert_by key x l) ≡ₚ key x :: map key l)
        by (rewrite (insert_by_perm x l); reflexivity).
      rewrite Hperm. constructor; [lia|exact Hy].
Qed.

Lemma sort_by_sorted (l : list A) : StronglySorted Z.le (map key (sort_by key l)).
Proof.
  induction l as [|x l IH]; [constructor|].
  unfold sort_by in *. simpl. now apply insert_by_sorted.
Qed.

Lemma insert_by_front (x : A) (l : list A) :
  Forall (fun y => key x <= key y) l -> insert_by key x l = x :: l.
Proof.
  destruct 1 as [|y l Hy _]; simpl; [reflexivity|].
  destruct (Z.leb_spec (key x) (key y)); [reflexivity|lia].
Qed.

Lemma filter_insert_by (P : A -> Prop) `{!forall a, Decision (P a)} (x : A) (l : list A) :
  StronglySorted Z.le (map key l) ->
  filter P (insert_by key x l) =
    if decide (P x) then insert_by key x (filter P l) else filter P l.
Proof.
  induction l as [|y l IH]; intros Hs; simpl.
  - rewrite filter_cons, filter_nil. destruct (decide (P x)); reflexivity.
  - apply StronglySorted_inv in Hs as [Hl Hy].
    destruct (Z.leb_spec (key x) (key y)) as [Hle|Hgt].
    + rewrite filter_cons. destruct (decide (P x)); [|reflexivity].
      symmetry. apply insert_by_front.
      apply Forall_forall. intros z Hz.
      apply list_elem_of_filter in Hz as [_ Hz].
      apply elem_of_cons in Hz as [->|Hz]; [exact Hle|].
      rewrite Forall_forall in Hy.
      assert (key y <= key z) by (apply Hy; apply list_elem_of_fmap; now exists z).
      lia.
    + rewrite !(filter_cons _ y), (IH Hl).
      destruct (decide (P x)), (decide (P y)); try reflexivity.
      simpl. destruct (Z.leb_spec (key x) (key y)); [lia|reflexivity].
Qed.

(** Sorting and filtering commute: this is stability. *)
Lemma filter_sort_by (P : A -> Prop) `{!forall a, Decision (P a)} (l : list A) :
  filter P (sort_by key l) = sort_by key (filter P l).
Proof.
  induction l as [|x l IH]; [reflexivity|].
  change (sort_by key (x :: l)) with (insert_by key x (sort_by key l)).
  rewrite filter_insert_by by apply sort_by_sorted.
  rewrite filter_cons, IH. destruct (decide (P x)); reflexivity.
Qed.

Lemma sort_by_constant (k : Z) (l : list A) :
  Forall (fun x => key x = k) l -> sort_by key l = l.
Proof.
  induction 1 as [|x l Hx Hl IH]; [reflexivity|].
  change (sort_by key (x :: l)) with (insert_by key x (sort_by key l)).
  rewrite IH. apply insert_by_front.
  eapply Forall_impl; [exact Hl|]. simpl. intros y Hy. lia.
Qed.

End Sorting.

Lemma sort_by_map {A B : Type} (key : B -> Z) (f : A -> B) (l : list A) :
  sort_by key (map f l) = map f (sort_by (fun a => key (f a)) l).
Proof.
  induction l as [|x l IH]; [reflexivity|].
  change (sort_by key (map f (x :: l)))
    with (insert_by key (f x) (sort_by key (map f l))).
  change (sort_by (fun a => key (f a)) (x :: l))
    with (insert_by (fun a => key (f a)) x (sort_by (fun a => key (f a)) l)).
  rewrite IH. generalize (sort_by (fun a => key (f a)) l). intros s.
  induction s as [|y s IHs]; simpl; [reflexivity|].
  destruct (key (f x) <=? key (f y)); simpl; [reflexivity|now rewrite IHs].
Qed.

(** X6. The merged event list of [convert] is a rearrangement of the right
    hand's events (channel 0) followed by the left hand's (channel 1), in
    non-decreasing tick order, and events at one and the same tick keep
    that order: right hand before left hand, each hand in the order of its
    staff. *)
Theorem merge_events_is_stable_sort (right_hand_events left_hand_events
    : list XmlToMidi.event) :
  let tagged :=
    map (fun e => {| XmlToMidi.ev := e; XmlToMidi.channel := 0 |}) right_hand_events ++
    map (fun e => {| XmlToMidi.ev := e; XmlToMidi.channel := 1 |}) left_hand_events in
  let merged := XmlToMidi.merge_events right_hand_events left_hand_events in
  merged ≡ₚ tagged /\
  StronglySorted Z.le (map (fun e => XmlToMidi.tick (XmlToMidi.ev e)) merged) /\
  forall t : Z,
    filter (fun e => XmlToMidi.tick (XmlToMidi.ev e) = t) merged =
    filter (fun e => XmlToMidi.tick (XmlToMidi.ev e) = t) tagged.
Proof.
  intros tagged merged. unfold merged, XmlToMidi.merge_events. fold tagged.
  split; [apply sort_by_perm|]. split; [apply sort_by_sorted|].
  intros t. rewrite filter_sort_by. apply (sort_by_constant _ t).
  apply Forall_forall. intros e He. now apply list_elem_of_filter in He as [He _].
Qed.

End SortFacts.

(** ** The two tracks of [convert] (xml_to_midi.py) *)

Module XmlTrackFacts.
Import Py XmlToMidi TieSpec AssemblySpec.

Lemma emit_fold_full (evs : list channel_event) :
  forall c : cursors,
    right_track (foldl emit c evs) =
      right_track c ++
      encode_events 0 (last_tick_right c) (map ev (filter (fun e => channel e = 0) evs)) /\
    left_track (foldl emit c evs) =
      left_track c ++
      encode_events 1 (last_tick_left c) (map ev (filter (fun e => channel e <> 0) evs)).
Proof.
  induction evs as [|e evs IH]; intros c; simpl.
  - now rewrite !app_nil_r.
  - destruct (IH (emit c e)) as [IHr IHl]. rewrite IHr, IHl. clear IH IHr IHl.
    unfold emit. rewrite !filter_cons.
    destruct (decide (channel e = 0)) as [E|N].
    + destruct (decide (channel e <> 0)); [contradiction|]. simpl.
      rewrite <- app_assoc. split; reflexivity.
    + destruct (decide (channel e <> 0)); [|contradiction]. simpl.
      rewrite <- app_assoc. split; reflexivity.
Qed.

Lemma merged_right (r l : list event) :
  map ev (filter (fun e => channel e = 0) (merge_events r l)) = sort_by tick r.
Proof.
  unfold merge_events. rewrite SortFacts.filter_sort_by, filter_app.
  assert (Hr : filter (fun e => channel e = 0)
                 (map (fun e => {| ev := e; channel := 0 |}) r) =
               map (fun e => {| ev := e; channel := 0 |}) r).
  { induction r as [|e r IH]; [reflexivity|]. simpl.
    rewrite filter_cons_True by reflexivity. now rewrite IH. }
  assert (Hl : filter (fun e => channel e = 0)
                 (map (fun e => {| ev := e; channel := 1 |}) l) = []).
  { induction l as [|e l IH]; [reflexivity|]. simpl.
    rewrite filter_cons_False by (simpl; lia). exact IH. }
  rewrite Hr, Hl, app_nil_r, SortFacts.sort_by_map, map_map. simpl.
  apply map_id.
Qed.

Lemma merged_left (r l : list event) :
  map ev (filter (fun e => channel e <> 0) (merge_events r l)) = sort_by tick l.
Proof.
  unfold merge_events. rewrite SortFacts.filter_sort_by, filter_app.
  assert (Hr : filter (fun e => channel e <> 0)
                 (map (fun e => {| ev := e; channel := 0 |}) r) = []).
  { induction r as [|e r IH]; [reflexivity|]. simpl.
    rewrite filter_cons_False by (simpl; intros H; now apply H). exact IH. }
  assert (Hl : filter (fun e => channel e <> 0)
                 (map (fun e => {| ev := e; channel := 1 |}) l) =
               map (fun e => {| ev := e; channel := 1 |}) l).
  { induction l as [|e l IH]; [reflexivity|]. simpl.
    rewrite filter_cons_True by (simpl; lia). now rewrite IH. }
  rewrite Hr, Hl. simpl. rewrite SortFacts.sort_by_map, map_map. simpl.
  apply map_id.
Qed.

(** What [convert] saves, given the events of the first two staves. *)
Lemma convert_saves (root : Root) (division : Z) (staff0 staff1 : Staff)
    (others : list Staff) (r l : list event) :
  int_of_node_text (Division root) = Ok division ->
  all_staves root = staff0 :: staff1 :: others ->
  get_note_events_from_staff root staff0 = Ok r ->
  get_note_events_from_staff root staff1 = Ok l ->
  convert (Some root) =
    SavesAndReturnsTrue
      {| Mido.midi_type := 1; Mido.ticks_per_beat := division;
         Mido.tracks :=
           [track_header "Mano Derecha" (_get_key_signature root) 0 ++
              encode_events 0 0 (sort_by tick r);
            track_header "Mano Izquierda" (_get_key_signature root) 1 ++
              encode_events 1 0 (sort_by tick l)] |}.
Proof.
  intros Hdiv Hstaves Hr Hl. unfold convert. rewrite Hdiv, Hstaves, Hr, Hl.
  unfold assemble_tracks.
  destruct (emit_fold_full (merge_events r l)
              {| right_track := track_header "Mano Derecha" (_get_key_signature root) 0;
                 left_track := track_header "Mano Izquierda" (_get_key_signature root) 1;
                 last_tick_right := 0; last_tick_left := 0 |}) as [-> ->].
  simpl. now rewrite merged_right, merged_left.
Qed.

Lemma convert_saves_inv (root : Root) (mid : Mido.MidiFile) :
  convert (Some root) = SavesAndReturnsTrue mid ->
  exists division staff0 staff1 others r l,
    int_of_node_text (Division root) = Ok division /\
    all_staves root = staff0 :: staff1 :: others /\
    get_note_events_from_staff root staff0 = Ok r /\
    get_note_events_from_staff root staff1 = Ok l.
Proof.
  unfold convert. intros H.
  destruct (int_of_node_text (Division root)) as [division|[]] eqn:Ed; try discriminate.
  destruct (all_staves root) as [|staff0 [|staff1 others]] eqn:Es; try discriminate.
  destruct (get_note_events_from_staff root staff0) as [r|] eqn:Er; try discriminate.
  destruct (get_note_events_from_staff root staff1) as [l|] eqn:El; try discriminate.
  exists division, staff0, staff1, others, r, l. repeat split; assumption.
Qed.






Lemma note_pairs_ticks (evs : list event) :
  note_pairs (fun s e => 0 <= s <= e) evs -> Forall (fun e => 0 <= tick e) evs.
Proof.
  induction 1 as [|s e p rest Hse _ IH]; [constructor|].
  constructor; [simpl; lia|]. constructor; [simpl; lia|exact IH].
Qed.

Lemma encode_events_times (c : Z) (evs : list event) :
  forall last : Z,
    StronglySorted Z.le (map tick evs) ->
    Forall (fun e => last <= tick e) evs ->
    Forall (fun m => 0 <= Mido.time m) (encode_events c last evs).
Proof.
  induction evs as [|e evs IH]; intros last Hs Hl; [constructor|].
  change (map tick (e :: evs)) with (tick e :: map tick evs) in Hs.
  apply Forall_cons in Hl as [He Hl].
  apply StronglySorted_inv in Hs as [Hs Hhd].
  cbn [encode_events]. constructor; [simpl; lia|].
  apply IH; [exact Hs|]. exact (proj1 (List.Forall_map tick (Z.le (tick e)) evs) Hhd).
Qed.

Lemma encode_events_channel (c : Z) (evs : list event) :
  forall last : Z,
    Forall (fun m => Mido.is_meta m = false /\ Mido.channel m = c)
           (encode_events c last evs).
Proof.
  induction evs as [|e evs IH]; intros last; simpl; constructor; [now split|apply IH].
Qed.

(** X9. Whatever file [convert] saves has two tracks; every channel message
    of the first is on channel 0 and every one of the second on channel 1;
    and when the division is not negative no message has a negative delta
    time. *)
Theorem saved_tracks_are_well_formed (root : Root) (division : Z) (mid : Mido.MidiFile) :
  int_of_node_text (Division root) = Ok division ->
  convert (Some root) = SavesAndReturnsTrue mid ->
  exists right left,
    Mido.tracks mid = [right; left] /\
    Forall (fun m => Mido.is_meta m = false -> Mido.channel m = 0) right /\
    Forall (fun m => Mido.is_meta m = false -> Mido.channel m = 1) left /\
    (0 <= division ->
     Forall (fun m => 0 <= Mido.time m) right /\
     Forall (fun m => 0 <= Mido.time m) left).
Proof.
  intros Hdiv H.
  destruct (convert_saves_inv root mid H)
    as (d' & staff0 & staff1 & others & r & l & Hdiv' & Hstaves & Hr & Hl).
  rewrite Hdiv in Hdiv'. injection Hdiv' as <-.
  rewrite (convert_saves root division staff0 staff1 others r l Hdiv Hstaves Hr Hl) in H.
  injection H as <-. eexists _, _. split; [reflexivity|].
  assert (Hchan : forall c evs last,
             Forall (fun m => Mido.is_meta m = false -> Mido.channel m = c)
                    (encode_events c last evs)).
  { intros c evs last. eapply Forall_impl; [apply encode_events_channel|].
    simpl. intros m [_ Hm] _. exact Hm. }
  assert (Htimes : forall c evs,
             0 <= division ->
             note_pairs (fun s e => 0 <= s <= e) evs ->
             Forall (fun m => 0 <= Mido.time m) (encode_events c 0 (sort_by tick evs))).
  { intros c evs Hpos Hpairs. apply encode_events_times; [apply SortFacts.sort_by_sorted|].
    rewrite (SortFacts.sort_by_perm tick evs). now apply note_pairs_ticks. }
  split; [|split].
  - repeat (apply Forall_cons; split; [simpl; intros; congruence|]). apply Hchan.
  - repeat (apply Forall_cons; split; [simpl; intros; congruence|]). apply Hchan.
  - intros Hpos. split.
    + repeat (apply Forall_cons; split; [simpl; lia|]). apply Htimes; [exact Hpos|].
      exact (proj2 (StaffFacts.staff_events_shape root staff0 division r Hdiv Hr)
               Hpos).
    + repeat (apply Forall_cons; split; [simpl; lia|]). apply Htimes; [exact Hpos|].
      exact (proj2 (StaffFacts.staff_events_shape root staff1 division l Hdiv Hl)
               Hpos).
Qed.

Lemma saved_tracks_are_well_formed_witness :
  exists right left,
    Mido.tracks
      {| Mido.midi_type := 1; Mido.ticks_per_beat := 480;
         Mido.tracks :=
           [track_header "Mano Derecha" "C" 0 ++
              encode_events 0 0 (sort_by tick [note_on 0 72; note_off 960 72]);
            track_header "Mano Izquierda" "C" 1 ++
              encode_events 1 0 (sort_by tick [note_on 0 48; note_off 480 48])] |}
    = [right; left] /\
    Forall (fun m => Mido.is_meta m = false -> Mido.channel m = 0) right /\
    Forall (fun m => Mido.is_meta m = false -> Mido.channel m = 1) left /\
    (0 <= 480 ->
     Forall (fun m => 0 <= Mido.time m) right /\
     Forall (fun m => 0 <= Mido.time m) left).
Proof.
  apply (saved_tracks_are_well_formed
           (score "480"
              [ [ [ [chord "half" [tied_note "72" false false]] ] ];
                [ [ [chord "quarter" [tied_note "48" false false]] ] ] ]) 480);
    reflexivity.
Defined.

End XmlTrackFacts.

(** ** Key names *)

Module KeyNameFacts.
Import Py XmlToMidi KeySpec.

Lemma scan_result (l : list KeySig) :
  exists (f : Z) (mode_node : option (option string)),
    match key_sig_scan l with
    | Ok k => k
    | Raise _ => "C"
    end = key_name f (is_minor mode_node).
Proof.
  induction l as [|ks l IH]; simpl.
  - now exists 0, None.
  - destruct (accidental ks) as [[t|]|]; try exact IH.
    destruct (decide (strip t = "")); [exact IH|].
    destruct (int (strip t)) as [f|e]; simpl.
    + exists f, (mode ks). apply KeyFacts.result_key_name.
    + now exists 0, None.
Qed.

(** X10. [_get_key_signature] always returns one of the thirty key names
    of the two tables, the name of a count between -7 and 7 in major or in
    minor: the [key_signature] meta message never gets an unknown key. *)
Theorem key_signature_is_a_table_name (root : Root) :
  exists (f : Z) (minor : bool),
    -7 <= f <= 7 /\
    _get_key_signature root =
      default "C" ((if minor then SHARPS_TO_MINOR else SHARPS_TO_MAJOR) !! f).
Proof.
  unfold _get_key_signature.
  destruct (scan_result (all_key_sigs root)) as (f & m & ->).
  destruct (decide (-7 <= f <= 7)) as [Hin|Hout].
  - exists f, (is_minor m). split; [exact Hin|].
    destruct (is_minor m).
    + change (key_name f true) with (key_name f (is_minor (Some (Some "minor")))).
      rewrite <- KeyFacts.result_key_name. reflexivity.
    + change (key_name f false) with (key_name f (is_minor None)).
      rewrite <- KeyFacts.result_key_name. reflexivity.
  - exists 0, false. split; [lia|]. now rewrite KeyFacts.key_name_out_of_range.
Qed.

Lemma small_count (f : Z) :
  -7 <= f <= 7 ->
  f = -7 \/ f = -6 \/ f = -5 \/ f = -4 \/ f = -3 \/ f = -2 \/ f = -1 \/ f = 0 \/
  f = 1 \/ f = 2 \/ f = 3 \/ f = 4 \/ f = 5 \/ f = 6 \/ f = 7.
Proof. lia. Qed.

(** X11. Within -7..7 the key name tells the accidental count and the mode
    apart: the two tables share no name and neither has a name twice. *)
Theorem key_names_are_distinct (f f' : Z) (mode_node mode_node' : option (option string)) :
  -7 <= f <= 7 -> -7 <= f' <= 7 ->
  result_key mode_node f = result_key mode_node' f' ->
  f = f' /\ is_minor mode_node = is_minor mode_node'.
Proof.
  intros Hf Hf'. rewrite !KeyFacts.result_key_name.
  apply small_count in Hf, Hf'.
  destruct (is_minor mode_node), (is_minor mode_node');
    repeat (destruct Hf as [->|Hf]); try subst f;
    repeat (destruct Hf' as [->|Hf']); try subst f';
    simpl; intros H; first [discriminate H | split; reflexivity].
Qed.

Lemma key_names_are_distinct_witness :
  2 = 2 /\ is_minor (Some (Some "minor")) = is_minor (Some (Some "minor")).
Proof.
  apply (key_names_are_distinct 2 2 (Some (Some "minor")) (Some (Some "minor")));
    [lia|lia|reflexivity].
Defined.

End KeyNameFacts.

(** ** converter.py: the re-channelled tracks *)

Module YamahaFacts.
Import Yamaha AssemblySpec.

Lemma hand_track_times (hand : string) (c : Z) (source : list Mido.Message) :
  map Mido.time (hand_track hand c source) = [0; 0] ++ map Mido.time source.
Proof.
  unfold hand_track. rewrite map_app, map_map. f_equal.
  apply map_ext. intros m. unfold rechannel. now destruct (Mido.is_meta m).
Qed.

Lemma hand_track_content (hand : string) (c : Z) (source : list Mido.Message) :
  map content (skipn 2 (hand_track hand c source)) = map content source.
Proof.
  change (skipn 2 (hand_track hand c source)) with (map (rechannel c) source).
  rewrite map_map.
  apply map_ext. intros m. unfold rechannel. now destruct (Mido.is_meta m).
Qed.

Lemma hand_track_channel (hand : string) (c : Z) (source : list Mido.Message) :
  Forall (fun m => Mido.is_meta m = false -> Mido.channel m = c) (hand_track hand c source).
Proof.
  unfold hand_track. cbn [app].
  constructor; [discriminate|]. constructor; [reflexivity|].
  apply Forall_forall. intros m Hm. apply list_elem_of_fmap in Hm as (m0 & -> & _).
  unfold rechannel. destruct (Mido.is_meta m0) eqn:E; simpl; [congruence|reflexivity].
Qed.


Lemma convert_inv (source mid : Mido.MidiFile) :
  convert (Some source) = Some mid ->
  exists track0 track1 others,
    filter (fun t => has_note_messages t = true) (Mido.tracks source)
      = track0 :: track1 :: others /\
    mid = {| Mido.midi_type := 1;
             Mido.ticks_per_beat := Mido.ticks_per_beat source;
             Mido.tracks := [hand_track "Mano Derecha" 0 track0;
                             hand_track "Mano Izquierda" 1 track1] |}.
Proof.
  unfold convert. intros H.
  destruct (filter _ (Mido.tracks source)) as [|track0 [|track1 others]];
    try discriminate.
  injection H as <-. now exists track0, track1, others.
Qed.

(** X12. When the re-encoding conversion saves a file, it has the source's
    resolution and two tracks made from the first two note-bearing tracks
    of the source: after a two-message header at delta 0 every message is
    the source's, with the same content and the same delta time, and every
    channel message of the first track is on channel 0, of the second on
    channel 1. *)
Theorem yamaha_tracks_keep_timing (source mid : Mido.MidiFile) :
  convert (Some source) = Some mid ->
  exists track0 track1 others right left,
    filter (fun t => has_note_messages t = true) (Mido.tracks source)
      = track0 :: track1 :: others /\
    Mido.ticks_per_beat mid = Mido.ticks_per_beat source /\
    Mido.tracks mid = [right; left] /\
    map Mido.time right = [0; 0] ++ map Mido.time track0 /\
    map Mido.time left = [0; 0] ++ map Mido.time track1 /\
    map content (skipn 2 right) = map content track0 /\
    map content (skipn 2 left) = map content track1 /\
    Forall (fun m => Mido.is_meta m = false -> Mido.channel m = 0) right /\
    Forall (fun m => Mido.is_meta m = false -> Mido.channel m = 1) left.
Proof.
  intros H. destruct (convert_inv source mid H) as (track0 & track1 & others & Hf & ->).
  exists track0, track1, others, (hand_track "Mano Derecha" 0 track0),
    (hand_track "Mano Izquierda" 1 track1).
  split; [exact Hf|]. split; [reflexivity|]. split; [reflexivity|].
  split; [apply hand_track_times|]. split; [apply hand_track_times|].
  split; [apply hand_track_content|]. split; [apply hand_track_content|].
  split; apply hand_track_channel.
Qed.

Lemma yamaha_tracks_keep_timing_witness :
  exists track0 track1 others right left,
    filter (fun t => has_note_messages t = true)
      [[Mido.track_name "Piano"];
       [Mido.note_message "note_on" 72 80 0 3; Mido.note_message "note_off" 72 0 480 3];
       [Mido.note_message "note_on" 48 80 240 3; Mido.note_message "note_off" 48 0 240 3]]
      = track0 :: track1 :: others /\
    Mido.ticks_per_beat
      {| Mido.midi_type := 1; Mido.ticks_per_beat := 480;
         Mido.tracks :=
           [hand_track "Mano Derecha" 0
              [Mido.note_message "note_on" 72 80 0 3;
               Mido.note_message "note_off" 72 0 480 3];
            hand_track "Mano Izquierda" 1
              [Mido.note_message "note_on" 48 80 240 3;
               Mido.note_message "note_off" 48 0 240 3]] |} = 480 /\
    [hand_track "Mano Derecha" 0
       [Mido.note_message "note_on" 72 80 0 3; Mido.note_message "note_off" 72 0 480 3];
     hand_track "Mano Izquierda" 1
       [Mido.note_message "note_on" 48 80 240 3; Mido.note_message "note_off" 48 0 240 3]]
      = [right; left] /\
    map Mido.time right = [0; 0] ++ map Mido.time track0 /\
    map Mido.time left = [0; 0] ++ map Mido.time track1 /\
    map content (skipn 2 right) = map content track0 /\
    map content (skipn 2 left) = map content track1 /\
    Forall (fun m => Mido.is_meta m = false -> Mido.channel m = 0) right /\
    Forall (fun m => Mido.is_meta m = false -> Mido.channel m = 1) left.
Proof.
  apply (yamaha_tracks_keep_timing
           {| Mido.midi_type := 1; Mido.ticks_per_beat := 480;
              Mido.tracks :=
                [[Mido.track_name "Piano"];
                 [Mido.note_message "note_on" 72 80 0 3;
                  Mido.note_message "note_off" 72 0 480 3];
                 [Mido.note_message "note_on" 48 80 240 3;
                  Mido.note_message "note_off" 48 0 240 3]] |}).
  reflexivity.
Defined.



End YamahaFacts.

(** ** advanced_mscz_converter.py: analysis and split *)

Module AdvancedFacts.
Import Advanced AnalysisSpec SplitSpec TrackSpec AssemblySpec.

Lemma py_min_in (pitches : list Z) :
  pitches <> [] ->
  py_min pitches ∈ pitches /\ forall n, n ∈ pitches -> py_min pitches <= n.
Proof.
  destruct pitches as [|x rest]; [contradiction|]. intros _.
  exact (SplitFacts.foldl_min_least rest x).
Qed.

Lemma py_max_in (pitches : list Z) :
  pitches <> [] ->
  py_max pitches ∈ pitches /\ forall n, n ∈ pitches -> n <= py_max pitches.
Proof.
  destruct pitches as [|x rest]; [contradiction|]. intros _.
  exact (SplitFacts.foldl_max_greatest rest x).
Qed.

Lemma consider_ext (nc nc' : gmap Z Z) (cs : list Z) :
  (forall c, density nc c = density nc' c) ->
  forall acc, foldl (consider nc) acc cs = foldl (consider nc') acc cs.
Proof.
  intros H. induction cs as [|c cs IH]; intros acc; simpl; [reflexivity|].
  rewrite IH. f_equal. unfold consider. now rewrite H.
Qed.

Lemma occurrences_perm (q : Z) (l l' : list Z) :
  l ≡ₚ l' -> occurrences q l = occurrences q l'.
Proof. intros H. unfold occurrences. now rewrite H. Qed.

(** X14. The split depends on the pitches as a multiset only: the order in
    which the notes were met (track order, time order) does not matter. *)
Theorem split_ignores_order (pitches pitches' : list Z) :
  pitches ≡ₚ pitches' ->
  _calculate_optimal_split pitches = _calculate_optimal_split pitches'.
Proof.
  intros Hperm.
  destruct pitches as [|x rest].
  { apply Permutation_nil_l in Hperm. now subst. }
  assert (Hne : x :: rest <> []) by discriminate.
  assert (Hne' : pitches' <> []).
  { intros ->. now apply Permutation_nil_r in Hperm. }
  rewrite !SplitFacts.split_unfold by assumption.
  destruct (py_min_in _ Hne) as [Hmin_in Hmin_le].
  destruct (py_max_in _ Hne) as [Hmax_in Hmax_le].
  assert (Hmin : py_min pitches' = py_min (x :: rest)).
  { apply SplitFacts.py_min_is.
    - now rewrite <- Hperm.
    - intros n Hn. apply Hmin_le. now rewrite Hperm. }
  assert (Hmax : py_max pitches' = py_max (x :: rest)).
  { apply SplitFacts.py_max_is.
    - now rewrite <- Hperm.
    - intros n Hn. apply Hmax_le. now rewrite Hperm. }
  unfold search_start, search_end. rewrite Hmin, Hmax.
  f_equal. apply consider_ext. intros c.
  rewrite !SplitFacts.density_spec. unfold local_density.
  now rewrite !(occurrences_perm _ _ _ Hperm).
Qed.

Lemma split_ignores_order_witness :
  _calculate_optimal_split [40; 52; 64; 71; 45; 76] =
  _calculate_optimal_split [76; 71; 64; 52; 45; 40].
Proof.
  apply split_ignores_order.
  apply (Permutation_trans (l' := [40; 52; 64; 71; 76; 45])).
  - do 4 apply perm_skip. apply perm_swap.
  - symmetry. apply (Permutation_trans (l' := rev [40; 45; 52; 64; 71; 76])).
    + reflexivity.
    + rewrite <- Permutation_rev. do 1 apply perm_skip.
      apply (Permutation_trans (l' := [52; 45; 64; 71; 76])); [apply perm_swap|].
      apply perm_skip.
      apply (Permutation_trans (l' := [64; 45; 71; 76])); [apply perm_swap|].
      apply perm_skip.
      apply (Permutation_trans (l' := [71; 45; 76])); [apply perm_swap|].
      apply perm_skip. apply perm_swap.
Defined.

Lemma split_in_window (pitches : list Z) :
  48 <= _calculate_optimal_split pitches <= 72.
Proof.
  destruct pitches as [|x rest]; [simpl; lia|].
  assert (Hne : x :: rest <> []) by discriminate.
  destruct (py_min_in _ Hne) as [Hmin_in Hmin_le].
  destruct (py_max_in _ Hne) as [Hmax_in Hmax_le].
  destruct (Z_le_gt_dec (Z.max 48 (py_min (x :: rest))) (Z.min 72 (py_max (x :: rest))))
    as [Hrange|Hempty].
  - destruct (SplitFacts.least_density_in_range (x :: rest) _ _
                Hmin_in Hmin_le Hmax_in Hmax_le Hrange) as [H _]. lia.
  - rewrite SplitFacts.split_unfold by assumption.
    unfold search_start, search_end. rewrite SplitFacts.range_empty by lia. simpl. lia.
Qed.

Lemma count_positive_has_member (P : Mido.Message -> Prop) `{!forall m, Decision (P m)}
    (l : list Mido.Message) :
  0 < Z.of_nat (length (filter P l)) -> exists m, m ∈ l /\ P m.
Proof.
  destruct (filter P l) as [|m rest] eqn:E; simpl; [lia|]. intros _.
  assert (Hm : m ∈ filter P l) by (rewrite E; left).
  apply list_elem_of_filter in Hm as [HP Hin]. now exists m.
Qed.

(** X15. The split stored by the analysis is always between 48 and 72.
    When separation is needed the candidate range is never empty: the
    lowest note-on pitch is below 60, the highest at least 60, and the
    split lies between [max 48 lowest] and [min 72 highest]; so the highest
    note is never below the split, and the right hand is never empty. *)
Theorem analysis_split_is_a_candidate (midi_file : Mido.MidiFile) :
  let a := _analyze_track_structure midi_file in
  let pitches := map Mido.note (note_ons midi_file) in
  48 <= split_point a <= 72 /\
  (needs_separation a = true ->
   exists lo hi,
     lo ∈ pitches /\ hi ∈ pitches /\ (forall n, n ∈ pitches -> lo <= n <= hi) /\
     lo < 60 <= hi /\
     Z.max 48 lo <= split_point a <= Z.min 72 hi).
Proof.
  intros a pitches.
  destruct (AnalysisFacts.tally_file_spec midi_file) as (Hc & Hl & Hh & Hn).
  fold (note_ons midi_file) in Hc, Hl, Hh, Hn. fold pitches in Hn.
  unfold a, _analyze_track_structure. cbn [split_point needs_separation].
  rewrite Hl, Hh, Hn.
  split.
  - destruct (_ && _ && _); [apply split_in_window|lia].
  - intros Hsep. rewrite Hsep.
    apply andb_true_iff in Hsep as [Hsep Hhigh].
    apply andb_true_iff in Hsep as [_ Hlow].
    apply Z.ltb_lt in Hlow, Hhigh.
    destruct (count_positive_has_member (fun m => Mido.note m < 60) (note_ons midi_file))
      as (mlow & Hmlow & Hlt); [unfold count_below_60 in Hlow; lia|].
    destruct (count_positive_has_member (fun m => 60 <= Mido.note m) (note_ons midi_file))
      as (mhigh & Hmhigh & Hge); [unfold count_from_60 in Hhigh; lia|].
    assert (Hlow_in : Mido.note mlow ∈ pitches)
      by (apply list_elem_of_fmap; now exists mlow).
    assert (Hhigh_in : Mido.note mhigh ∈ pitches)
      by (apply list_elem_of_fmap; now exists mhigh).
    assert (Hne : pitches <> []) by (intros E; rewrite E in Hlow_in; inversion Hlow_in).
    destruct (py_min_in _ Hne) as [Hmin_in Hmin_le].
    destruct (py_max_in _ Hne) as [Hmax_in Hmax_le].
    exists (py_min pitches), (py_max pitches).
    pose proof (Hmin_le _ Hlow_in). pose proof (Hmax_le _ Hhigh_in).
    split; [exact Hmin_in|]. split; [exact Hmax_in|].
    split; [intros n Hn'; split; [now apply Hmin_le|now apply Hmax_le]|].
    split; [lia|].
    apply (SplitFacts.least_density_in_range pitches _ _
             Hmin_in Hmin_le Hmax_in Hmax_le). lia.
Qed.

Lemma analysis_split_is_a_candidate_witness :
  let file :=
    file_of_notes [(0, 40); (0, 42); (0, 43); (0, 45); (0, 47); (0, 48);
                   (0, 64); (0, 65); (0, 67); (0, 69); (0, 71); (0, 72)] in
  let a := _analyze_track_structure file in
  let pitches := map Mido.note (note_ons file) in
  exists lo hi,
    lo ∈ pitches /\ hi ∈ pitches /\ (forall n, n ∈ pitches -> lo <= n <= hi) /\
    lo < 60 <= hi /\
    Z.max 48 lo <= split_point a <= Z.min 72 hi.
Proof.
  intros file a pitches.
  apply (proj2 (analysis_split_is_a_candidate file)). reflexivity.
Defined.

Lemma tally_message_flag (track : list Mido.Message) :
  forall (t : tally) (b : bool),
    snd (foldl tally_message (t, b) track) = b || existsb sounding_note_on track /\
    t_musical_tracks (fst (foldl tally_message (t, b) track)) = t_musical_tracks t.
Proof.
  induction track as [|msg track IH]; intros t b; simpl.
  - now rewrite orb_false_r.
  - unfold tally_message at 2 4. destruct (sounding_note_on msg); simpl.
    + destruct (IH {| t_musical_tracks := t_musical_tracks t;
                      t_channels_used := t_channels_used t ∪ {[Mido.channel msg]};
                      t_low := if Mido.note msg <? 60 then t_low t + 1 else t_low t;
                      t_high := if Mido.note msg <? 60 then t_high t else t_high t + 1;
                      t_all_notes := t_all_notes t ++ [Mido.note msg] |} true)
        as [-> ->].
      simpl. now rewrite orb_true_r.
    + apply IH.
Qed.

Lemma tally_track_count (t : tally) (track : list Mido.Message) :
  t_musical_tracks (tally_track t track) =
  t_musical_tracks t + (if existsb sounding_note_on track then 1 else 0).
Proof.
  unfold tally_track.
  destruct (tally_message_flag track t false) as [Hflag Hcount].
  destruct (foldl tally_message (t, false) track) as [t' has_notes].
  simpl in Hflag, Hcount. subst has_notes.
  destruct (existsb sounding_note_on track); simpl; lia.
Qed.

Lemma tally_tracks_count (tracks : list (list Mido.Message)) :
  forall t : tally,
    t_musical_tracks (foldl tally_track t tracks) =
    t_musical_tracks t +
    Z.of_nat (length (filter (fun track => existsb sounding_note_on track = true) tracks)).
Proof.
  induction tracks as [|track tracks IH]; intros t; simpl; [lia|].
  rewrite IH, tally_track_count, filter_cons.
  destruct (existsb sounding_note_on track); simpl.
  - destruct (decide (true = true)); [|contradiction]. simpl. lia.
  - destruct (decide (false = true)); [discriminate|]. lia.
Qed.

Lemma filter_split_length (l : list Mido.Message) :
  Nat.add (length (filter (fun m => Mido.note m < 60) l))
          (length (filter (fun m => 60 <= Mido.note m) l)) = length l.
Proof.
  induction l as [|m l IH]; [reflexivity|].
  rewrite !filter_cons.
  destruct (decide (Mido.note m < 60)), (decide (60 <= Mido.note m)); simpl; lia.
Qed.

(** X16. The counters of the analysis: [musical_tracks] is the number of
    tracks with at least one [note_on] of positive velocity, never more
    than [total_tracks], which is the number of tracks; the low and high
    counts add up to the number of such [note_on] messages. *)
Theorem analysis_counters (midi_file : Mido.MidiFile) :
  let a := _analyze_track_structure midi_file in
  total_tracks a = length (Mido.tracks midi_file) /\
  musical_tracks a =
    Z.of_nat (length (filter (fun track => existsb sounding_note_on track = true)
                             (Mido.tracks midi_file))) /\
  0 <= musical_tracks a <= Z.of_nat (total_tracks a) /\
  note_distribution_low a + note_distribution_high a =
    Z.of_nat (length (note_ons midi_file)).
Proof.
  intros a. unfold a, _analyze_track_structure. cbn.
  assert (Hm : t_musical_tracks (tally_file midi_file) =
               Z.of_nat (length (filter (fun track => existsb sounding_note_on track = true)
                                        (Mido.tracks midi_file)))).
  { unfold tally_file. rewrite tally_tracks_count. simpl. lia. }
  split; [reflexivity|]. split; [exact Hm|]. split.
  - rewrite Hm. pose proof (length_filter
                  (fun track => existsb sounding_note_on track = true)
                  (Mido.tracks midi_file)). lia.
  - destruct (AnalysisFacts.tally_file_spec midi_file) as (_ & Hl & Hh & _).
    rewrite Hl, Hh. unfold count_below_60, count_from_60.
    fold (note_ons midi_file).
    pose proof (filter_split_length (note_ons midi_file)). lia.
Qed.

End AdvancedFacts.

(** ** advanced_mscz_converter.py: the separated tracks *)

Module SeparationFacts.
Import Advanced TrackSpec AssemblySpec.

Lemma place_fold_full (split : Z) (evs : list (Z * Mido.Message)) :
  forall h : hands,
    right_hand_track (foldl (place split) h evs) =
      right_hand_track h ++
      encode_timed 0 (right_last_time h) (filter (fun tm => to_right split tm = true) evs) /\
    left_hand_track (foldl (place split) h evs) =
      left_hand_track h ++
      encode_timed 1 (left_last_time h) (filter (fun tm => to_left split tm = true) evs).
Proof.
  induction evs as [|[t msg] evs IH]; intros h.
  - simpl. now rewrite !app_nil_r.
  - change (foldl (place split) h ((t, msg) :: evs))
      with (foldl (place split) (place split h (t, msg)) evs).
    destruct (IH (place split h (t, msg))) as [IHr IHl]. rewrite IHr, IHl.
    clear IH IHr IHl.
    unfold place. rewrite !filter_cons. unfold to_right, to_left. simpl.
    destruct (is_note msg).
    + destruct (split <=? Mido.note msg); simpl.
      * destruct (decide (true = true)); [|contradiction].
        destruct (decide (false = true)); [discriminate|]. simpl.
        rewrite <- app_assoc. split; reflexivity.
      * destruct (decide (true = true)); [|contradiction].
        destruct (decide (false = true)); [discriminate|]. simpl.
        rewrite <- app_assoc. split; reflexivity.
    + destruct (is_control msg); simpl.
      * destruct (decide (true = true)); [|contradiction]. simpl.
        rewrite <- !app_assoc. split; reflexivity.
      * destruct (decide (false = true)); [discriminate|]. split; reflexivity.
Qed.

(** The three tracks of the separated file. *)
Lemma separated_tracks (original_mid : Mido.MidiFile) (meta_track : list Mido.Message)
    (a : analysis) :
  Mido.tracks (_create_separated_midi original_mid meta_track a) =
    [meta_track;
     [Mido.track_name "Mano Derecha"; Mido.program_change 0 0] ++
       encode_timed 0 0 (filter (fun tm => to_right (split_point a) tm = true)
                                (combined_events original_mid));
     [Mido.track_name "Mano Izquierda"; Mido.program_change 1 0] ++
       encode_timed 1 0 (filter (fun tm => to_left (split_point a) tm = true)
                                (combined_events original_mid))].
Proof.
  unfold _create_separated_midi, separate_hands. cbn [Mido.tracks].
  destruct (place_fold_full (split_point a) (combined_events original_mid)
              {| right_hand_track := [Mido.track_name "Mano Derecha";
                                      Mido.program_change 0 0];
                 left_hand_track := [Mido.track_name "Mano Izquierda";
                                     Mido.program_change 1 0];
                 right_last_time := 0; left_last_time := 0 |}) as [-> ->].
  reflexivity.
Qed.

Lemma encode_timed_forall (P : Mido.Message -> Prop) (c : Z)
    (evs : list (Z * Mido.Message)) :
  (forall t d msg, (t, msg) ∈ evs -> P (retimed c d msg)) ->
  forall last, Forall P (encode_timed c last evs).
Proof.
  induction evs as [|[t msg] evs IH]; intros H last; simpl; constructor.
  - apply (H t). left.
  - apply IH. intros t' d msg' Hin. apply (H t'). now right.
Qed.

Lemma hands_split_shape (original_mid : Mido.MidiFile)
    (meta_track : list Mido.Message) (a : analysis) :
  let new_mid := _create_separated_midi original_mid meta_track a in
  Mido.ticks_per_beat new_mid = Mido.ticks_per_beat original_mid /\
  exists right left,
    Mido.tracks new_mid = [meta_track; right; left] /\
    Forall (fun m => is_note m = true -> split_point a <= Mido.note m) right /\
    Forall (fun m => is_note m = true -> Mido.note m < split_point a) left /\
    Forall (fun m => Mido.is_meta m = false -> Mido.channel m = 0) right /\
    Forall (fun m => Mido.is_meta m = false -> Mido.channel m = 1) left.
Proof.
  intros new_mid. split; [reflexivity|].
  eexists _, _. split; [apply separated_tracks|].
  split; [|split; [|split]].
  - apply Forall_app. split; [repeat constructor; discriminate|].
    apply encode_timed_forall. intros t d msg Hin Hnote.
    apply list_elem_of_filter in Hin as [Hin _]. unfold to_right in Hin. simpl in Hin.
    change (is_note (retimed 0 d msg)) with (is_note msg) in Hnote.
    rewrite Hnote in Hin. now apply Z.leb_le in Hin.
  - apply Forall_app. split; [repeat constructor; discriminate|].
    apply encode_timed_forall. intros t d msg Hin Hnote.
    apply list_elem_of_filter in Hin as [Hin _]. unfold to_left in Hin. simpl in Hin.
    change (is_note (retimed 1 d msg)) with (is_note msg) in Hnote.
    rewrite Hnote in Hin. apply negb_true_iff, Z.leb_gt in Hin. exact Hin.
  - apply Forall_app. split; [repeat constructor; simpl; congruence|].
    apply encode_timed_forall. reflexivity.
  - apply Forall_app. split; [repeat constructor; simpl; congruence|].
    apply encode_timed_forall. reflexivity.
Qed.

(** X17. The separated file has the source's resolution and three tracks:
    the metadata track, the right hand and the left hand.  Every note
    message of the right hand has a pitch at or above the split point and
    every note message of the left hand a pitch below it; every channel
    message of the right hand is on channel 0, of the left hand on
    channel 1. *)
Theorem hands_are_split_by_pitch (original_mid : Mido.MidiFile)
    (meta_track : list Mido.Message) (a : analysis) :
  let new_mid := _create_separated_midi original_mid meta_track a in
  Mido.ticks_per_beat new_mid = Mido.ticks_per_beat original_mid /\
  exists right left,
    Mido.tracks new_mid = [meta_track; right; left] /\
    Forall (fun m => is_note m = true -> split_point a <= Mido.note m) right /\
    Forall (fun m => is_note m = true -> Mido.note m < split_point a) left /\
    Forall (fun m => Mido.is_meta m = false -> Mido.channel m = 0) right /\
    Forall (fun m => Mido.is_meta m = false -> Mido.channel m = 1) left.
Proof. exact (hands_split_shape original_mid meta_track a). Qed.

Lemma encode_timed_content (c last : Z) (evs : list (Z * Mido.Message)) :
  map content (encode_timed c last evs) = map (fun tm => content (snd tm)) evs.
Proof.
  revert last. induction evs as [|[t msg] evs IH]; intros last; [reflexivity|].
  simpl. now rewrite IH.
Qed.

Lemma timed_events_musical (track : list Mido.Message) :
  forall t0, Forall (fun tm => is_musical (snd tm) = true) (timed_events t0 track).
Proof.
  induction track as [|msg track IH]; intros t0; simpl; [constructor|].
  destruct (is_musical msg) eqn:E; [constructor; [exact E|]|]; apply IH.
Qed.

Lemma combined_events_musical (original_mid : Mido.MidiFile) :
  Forall (fun tm => is_musical (snd tm) = true) (combined_events original_mid).
Proof.
  unfold combined_events. rewrite (SortFacts.sort_by_perm fst).
  apply Forall_concat, Forall_forall. intros l Hl.
  apply list_elem_of_fmap in Hl as (track & -> & _). apply timed_events_musical.
Qed.

(** X18. Nothing is lost and nothing is invented: after its two-message
    header each hand carries, in order and with unchanged content, exactly
    the merged events routed to it; every merged event is a note or a
    control or program change; a note is routed to exactly one hand and a
    control or program change to both. *)
Theorem separation_keeps_every_event (original_mid : Mido.MidiFile)
    (meta_track : list Mido.Message) (a : analysis) :
  let evs := combined_events original_mid in
  let split := split_point a in
  exists right left,
    Mido.tracks (_create_separated_midi original_mid meta_track a)
      = [meta_track; right; left] /\
    map content (skipn 2 right) =
      map (fun tm => content (snd tm)) (filter (fun tm => to_right split tm = true) evs) /\
    map content (skipn 2 left) =
      map (fun tm => content (snd tm)) (filter (fun tm => to_left split tm = true) evs) /\
    Forall (fun tm =>
              if is_note (snd tm)
              then to_right split tm = negb (to_left split tm)
              else is_control (snd tm) = true /\
                   to_right split tm = true /\ to_left split tm = true) evs.
Proof.
  intros evs split.
  eexists _, _. split; [apply separated_tracks|].
  split; [|split].
  - cbn [app skipn]. apply encode_timed_content.
  - cbn [app skipn]. apply encode_timed_content.
  - eapply Forall_impl; [apply combined_events_musical|].
    intros [t msg]. unfold to_right, to_left, is_musical, is_note, is_control. simpl.
    intros Hmus.
    destruct (bool_decide (Mido.type msg = "note_on")),
      (bool_decide (Mido.type msg = "note_off")); simpl;
      try (now rewrite negb_involutive).
    simpl in Hmus. now rewrite Hmus.
Qed.

Lemma timed_events_times (track : list Mido.Message) :
  Forall (fun m => 0 <= Mido.time m) track ->
  forall t0, Forall (fun tm => t0 <= fst tm) (timed_events t0 track).
Proof.
  induction 1 as [|msg track Hm _ IH]; intros t0; simpl; [constructor|].
  assert (Hrest : Forall (fun tm => t0 <= fst tm)
                         (timed_events (t0 + Mido.time msg) track)).
  { eapply Forall_impl; [apply IH|]. simpl. intros tm Htm. lia. }
  destruct (is_musical msg); [constructor; [simpl; lia|]|]; exact Hrest.
Qed.

Lemma sorted_filter {A : Type} (key : A -> Z) (P : A -> Prop)
    `{!forall x, Decision (P x)} (l : list A) :
  StronglySorted Z.le (map key l) -> StronglySorted Z.le (map key (filter P l)).
Proof.
  induction l as [|x l IH]; intros Hs; [constructor|].
  change (map key (x :: l)) with (key x :: map key l) in Hs.
  apply StronglySorted_inv in Hs as [Hs Hhd].
  rewrite filter_cons. destruct (decide (P x)); [|now apply IH].
  change (map key (x :: filter P l)) with (key x :: map key (filter P l)).
  constructor; [now apply IH|].
  apply List.Forall_map. apply (proj1 (List.Forall_map key (Z.le (key x)) l)) in Hhd.
  apply Forall_forall. intros y Hy. apply list_elem_of_filter in Hy as [_ Hy].
  rewrite Forall_forall in Hhd. now apply Hhd.
Qed.

Lemma encode_timed_times (c : Z) (evs : list (Z * Mido.Message)) :
  forall last : Z,
    StronglySorted Z.le (map fst evs) ->
    Forall (fun tm => last <= fst tm) evs ->
    Forall (fun m => 0 <= Mido.time m) (encode_timed c last evs).
Proof.
  induction evs as [|[t msg] evs IH]; intros last Hs Hl; [constructor|].
  change (map fst ((t, msg) :: evs)) with (t :: map fst evs) in Hs.
  apply Forall_cons in Hl as [He Hl]. simpl in He.
  apply StronglySorted_inv in Hs as [Hs Hhd].
  cbn [encode_timed]. constructor; [simpl; lia|].
  apply IH; [exact Hs|].
  exact (proj1 (List.Forall_map fst (Z.le t) evs) Hhd).
Qed.

(** X19. Separation never produces a negative delta time: when no message
    of the source has a negative delta, no message of the right or the left
    hand has one. *)
Theorem separation_keeps_deltas_nonnegative (original_mid : Mido.MidiFile)
    (meta_track : list Mido.Message) (a : analysis) :
  Forall (Forall (fun m => 0 <= Mido.time m)) (Mido.tracks original_mid) ->
  exists right left,
    Mido.tracks (_create_separated_midi original_mid meta_track a)
      = [meta_track; right; left] /\
    Forall (fun m => 0 <= Mido.time m) right /\
    Forall (fun m => 0 <= Mido.time m) left.
Proof.
  intros Hsrc.
  assert (Hsorted : StronglySorted Z.le (map fst (combined_events original_mid)))
    by apply SortFacts.sort_by_sorted.
  assert (Hpos : Forall (fun tm => 0 <= fst tm) (combined_events original_mid)).
  { unfold combined_events. rewrite (SortFacts.sort_by_perm fst).
    apply Forall_concat, Forall_forall. intros l Hl.
    apply list_elem_of_fmap in Hl as (track & -> & Hin).
    apply timed_events_times. rewrite Forall_forall in Hsrc. now apply Hsrc. }
  eexists _, _. split; [apply separated_tracks|].
  split; (apply Forall_app; split; [repeat constructor; simpl; lia|]);
    (apply encode_timed_times; [now apply sorted_filter|]);
    apply Forall_forall; intros tm Htm; apply list_elem_of_filter in Htm as [_ Htm];
    rewrite Forall_forall in Hpos; now apply Hpos.
Qed.

Lemma separation_keeps_deltas_nonnegative_witness :
  exists right left,
    Mido.tracks
      (_create_separated_midi
         {| Mido.midi_type := 1; Mido.ticks_per_beat := 480;
            Mido.tracks :=
              [[Mido.note_message "note_on" 72 80 0 0;
                Mido.note_message "note_off" 72 0 480 0];
               [Mido.note_message "note_on" 48 80 240 0;
                Mido.note_message "note_off" 48 0 240 0]] |}
         [Mido.track_name "Untitled"]
         (_analyze_track_structure
            {| Mido.midi_type := 1; Mido.ticks_per_beat := 480; Mido.tracks := [] |}))
      = [[Mido.track_name "Untitled"]; right; left] /\
    Forall (fun m => 0 <= Mido.time m) right /\
    Forall (fun m => 0 <= Mido.time m) left.
Proof.
  apply separation_keeps_deltas_nonnegative.
  repeat constructor; simpl; lia.
Defined.

End SeparationFacts.

(** ** advanced_mscz_converter.py: metadata and repair *)

Module MetadataFacts.
Import Py Metadata MetadataSpec.

Lemma keeps_values_refl (m : metadata) : keeps_values m m.
Proof. unfold keeps_values, text_fields. repeat constructor; auto. Qed.

Lemma keeps_values_trans (m1 m2 m3 : metadata) :
  keeps_values m1 m2 -> keeps_values m2 m3 -> keeps_values m1 m3.
Proof.
  unfold keeps_values. rewrite !Forall_forall. intros H12 H23 field Hf Hm.
  apply (H23 field Hf), (H12 field Hf), Hm.
Qed.

Lemma store_tag_keeps (m : metadata) (meta_tag : metaTag) :
  keeps_values m (store_tag m meta_tag) /\
  (no_blank_field m -> no_blank_field (store_tag m meta_tag)) /\
  parts (store_tag m meta_tag) = parts m.
Proof.
  unfold store_tag.
  destruct (truthy (tag_text meta_tag)) eqn:Hv;
    [|split; [apply keeps_values_refl|split; [auto|reflexivity]]].
  repeat (case_bool_decide;
          [split; [|split; [|reflexivity]];
           [unfold keeps_values, text_fields; repeat constructor; simpl; auto
           |intros Hb; unfold no_blank_field, text_fields in *;
            rewrite !Forall_cons in *;
            destruct Hb as (Bt & Bc & Ba & Bcp & Bs & Bl & _);
            simpl; repeat split; auto]|]).
  split; [apply keeps_values_refl|split; [auto|reflexivity]].
Qed.

Lemma store_tags_keep (meta_tags : list metaTag) :
  forall m,
    keeps_values m (foldl store_tag m meta_tags) /\
    (no_blank_field m -> no_blank_field (foldl store_tag m meta_tags)) /\
    parts (foldl store_tag m meta_tags) = parts m.
Proof.
  induction meta_tags as [|meta_tag meta_tags IH]; intros m; simpl.
  - split; [apply keeps_values_refl|split; [auto|reflexivity]].
  - destruct (store_tag_keeps m meta_tag) as (K1 & B1 & P1).
    destruct (IH (store_tag m meta_tag)) as (K2 & B2 & P2).
    split; [exact (keeps_values_trans _ _ _ K1 K2)|].
    split; [auto|congruence].
Qed.

(** X20. Extracting the basic metadata never blanks a field: a text field
    that had a value keeps one, and if no field was an empty string before
    none is afterwards.  Afterwards an artist is known whenever a composer
    is; a [workTitle] element with text decides the title whatever the
    [metaTag]s say; the parts list is not touched. *)
Theorem basic_metadata_never_blanks (meta_tags : list metaTag)
    (work_title : option (option string)) (m : metadata) :
  let r := _extract_basic_metadata meta_tags work_title m in
  keeps_values m r /\
  (no_blank_field m -> no_blank_field r) /\
  (truthy (composer r) = true -> truthy (artist r) = true) /\
  (forall text, work_title = Some text -> truthy text = true -> title r = text) /\
  parts r = parts m.
Proof.
  intros r. subst r. unfold _extract_basic_metadata.
  destruct (store_tags_keep meta_tags m) as (K1 & B1 & P1).
  set (m1 := foldl store_tag m meta_tags) in *.
  set (m2 := match work_title with
             | Some text => if truthy text then set_title text m1 else m1
             | None => m1
             end).
  assert (H2 : keeps_values m1 m2 /\ (no_blank_field m1 -> no_blank_field m2) /\
               parts m2 = parts m1 /\
               (forall text, work_title = Some text -> truthy text = true ->
                             title m2 = text)).
  { unfold m2. destruct work_title as [text|].
    - destruct (truthy text) eqn:Ht.
      + split; [unfold keeps_values, text_fields; repeat constructor; simpl; auto|].
        split; [intros Hb; unfold no_blank_field, text_fields in *;
                rewrite !Forall_cons in *;
                destruct Hb as (Bt & Bc & Ba & Bcp & Bs & Bl & _);
                simpl; repeat split; auto|].
        split; [reflexivity|]. intros t [= <-] _. reflexivity.
      + split; [apply keeps_values_refl|]. split; [auto|]. split; [reflexivity|].
        intros t [= <-] Ht'. congruence.
    - split; [apply keeps_values_refl|]. split; [auto|]. split; [reflexivity|].
      intros t Ht. discriminate. }
  destruct H2 as (K2 & B2 & P2 & T2).
  destruct (negb (truthy (artist m2)) && truthy (composer m2)) eqn:Hfall.
  - apply andb_true_iff in Hfall as [Ha Hc]. apply negb_true_iff in Ha.
    split; [|split; [|split; [|split]]].
    + apply (keeps_values_trans _ m2); [exact (keeps_values_trans _ _ _ K1 K2)|].
      unfold keeps_values, text_fields. repeat constructor; simpl; auto.
    + intros Hm. specialize (B2 (B1 Hm)). clear -B2 Hc.
      unfold no_blank_field, text_fields in *. rewrite !Forall_cons in *.
      destruct B2 as (Bt & Bc & Ba & Bcp & Bs & Bl & Bnil).
      split; [exact Bt|]. split; [exact Bc|]. split; [right; exact Hc|].
      split; [exact Bcp|]. split; [exact Bs|]. split; [exact Bl|constructor].
    + simpl. auto.
    + intros text Hw Ht. simpl. now apply T2.
    + simpl. congruence.
  - split; [exact (keeps_values_trans _ _ _ K1 K2)|]. split; [auto|].
    split; [|split; [exact T2|congruence]].
    intros Hc. rewrite Hc, andb_true_r in Hfall. now apply negb_false_iff in Hfall.
Qed.

Lemma basic_metadata_never_blanks_witness :
  let r := _extract_basic_metadata
             [{| name_attr := Some "Composer"; tag_text := Some "Bowie" |};
              {| name_attr := Some "workTitle"; tag_text := Some "Draft" |};
              {| name_attr := Some "arranger"; tag_text := Some "" |}]
             (Some (Some "The Man Who Sold The World")) empty_metadata in
  keeps_values empty_metadata r /\
  (no_blank_field empty_metadata -> no_blank_field r) /\
  (truthy (composer r) = true -> truthy (artist r) = true) /\
  (forall text, Some (Some "The Man Who Sold The World") = Some text ->
                truthy text = true -> title r = text) /\
  parts r = parts empty_metadata.
Proof. apply basic_metadata_never_blanks. Defined.

Lemma append_parts_readable (ps : list Part) :
  Forall channel_readable ps ->
  forall (i0 : nat) (acc : list part_info),
    exists infos,
      append_parts i0 ps acc = acc ++ infos /\
      Forall2 (fun part info => exists k, part_entry k part = Ok info /\ name info <> "")
              ps infos /\
      forall k part, ps !! k = Some part ->
                     exists info, infos !! k = Some info /\
                                  part_entry (i0 + k) part = Ok info.
Proof.
  induction 1 as [|part ps Hpart _ IH]; intros i0 acc; simpl.
  - exists []. rewrite app_nil_r. split; [reflexivity|]. split; [constructor|].
    intros k part Hk. discriminate.
  - assert (Hentry : exists info, part_entry i0 part = Ok info /\ name info <> "").
    { unfold part_entry. unfold channel_readable in Hpart.
      assert (Hname : forall node s, text_if_any node = Some s -> s <> "").
      { intros node s. unfold text_if_any. destruct node as [text|]; [|discriminate].
        destruct (truthy text) eqn:Ht; [|discriminate]. intros ->.
        simpl in Ht. intros ->. discriminate. }
      destruct (instrument part) as [ins|].
      - destruct (channel_elem ins) as [[text|]|] eqn:Ec.
        + destruct (Hpart ins text eq_refl Ec) as [z ->]. simpl.
          eexists. split; [reflexivity|]. simpl.
          destruct (text_if_any (longName ins)) eqn:E1; [now apply (Hname _ _ E1)|].
          destruct (text_if_any (shortName ins)) eqn:E2; [now apply (Hname _ _ E2)|].
          discriminate.
        + simpl. eexists. split; [reflexivity|]. simpl.
          destruct (text_if_any (longName ins)) eqn:E1; [now apply (Hname _ _ E1)|].
          destruct (text_if_any (shortName ins)) eqn:E2; [now apply (Hname _ _ E2)|].
          discriminate.
        + simpl. eexists. split; [reflexivity|]. simpl.
          destruct (text_if_any (longName ins)) eqn:E1; [now apply (Hname _ _ E1)|].
          destruct (text_if_any (shortName ins)) eqn:E2; [now apply (Hname _ _ E2)|].
          discriminate.
      - simpl. eexists. split; [reflexivity|]. discriminate. }
    destruct Hentry as (info & Hinfo & Hname). rewrite Hinfo.
    destruct (IH (S i0) (acc ++ [info])) as (infos & -> & HF & Hk).
    exists (info :: infos). rewrite <- app_assoc. split; [reflexivity|].
    split; [constructor; [now exists i0|exact HF]|].
    intros [|k] part' Hlook; simpl in Hlook.
    + injection Hlook as <-. exists info. split; [reflexivity|].
      now rewrite Nat.add_0_r.
    + destruct (Hk k part' Hlook) as (info' & Hl & He). exists info'.
      split; [exact Hl|]. now replace (i0 + S k)%nat with (S i0 + k)%nat by lia.
Qed.

(** X21. When every [channel] attribute is an integer, the parts found are
    appended to [metadata['parts']] one for one and in order: the entry
    for the part at index [k] is the one computed for that index, and its
    name is never empty. *)
Theorem parts_are_listed_in_order (ps : list Part) (m : metadata) :
  Forall channel_readable ps ->
  exists infos,
    parts (_extract_parts_info ps m) = parts m ++ infos /\
    length infos = length ps /\
    Forall (fun info => name info <> "") infos /\
    forall k part, ps !! k = Some part ->
                   exists info, infos !! k = Some info /\ part_entry k part = Ok info.
Proof.
  intros H. destruct (append_parts_readable ps H 0%nat (parts m)) as (infos & E & HF & Hk).
  exists infos. split; [exact E|]. split; [symmetry; exact (Forall2_length _ _ _ HF)|].
  split; [|exact Hk].
  clear -HF. induction HF as [|part info ps infos (k & _ & Hn) _ IH]; constructor; auto.
Qed.

Lemma parts_are_listed_in_order_witness :
  exists infos,
    parts (_extract_parts_info
             [{| id_attr := None;
                 instrument := Some {| longName := Some (Some "Grand Piano");
                                       shortName := None; channel_elem := Some None |} |};
              {| id_attr := Some "P2"; instrument := None |}]
             empty_metadata) = [] ++ infos /\
    length infos = 2%nat /\
    Forall (fun info => name info <> "") infos /\
    forall k part,
      [{| id_attr := None;
          instrument := Some {| longName := Some (Some "Grand Piano");
                                shortName := None; channel_elem := Some None |} |};
       {| id_attr := Some "P2"; instrument := None |}] !! k = Some part ->
      exists info, infos !! k = Some info /\ part_entry k part = Ok info.
Proof.
  apply (parts_are_listed_in_order
           [{| id_attr := None;
               instrument := Some {| longName := Some (Some "Grand Piano");
                                     shortName := None; channel_elem := Some None |} |};
            {| id_attr := Some "P2"; instrument := None |}] empty_metadata).
  constructor; [|constructor; [|constructor]].
  - intros ins text [= <-]. discriminate.
  - intros ins text. discriminate.
Defined.

Lemma append_parts_app (pre post : list Part) :
  Forall channel_readable pre ->
  forall (i0 : nat) (acc : list part_info),
    append_parts i0 (pre ++ post) acc =
    append_parts (i0 + length pre) post (append_parts i0 pre acc).
Proof.
  induction 1 as [|part pre Hpart Hpre IH]; intros i0 acc; simpl.
  - now rewrite Nat.add_0_r.
  - destruct (append_parts_readable [part] (Forall_cons_2 _ _ _ Hpart (Forall_nil_2 _))
                i0 acc) as (infos & E & _ & Hk).
    destruct (Hk 0%nat part eq_refl) as (info & _ & Hinfo).
    rewrite Nat.add_0_r in Hinfo. rewrite Hinfo.
    rewrite IH. now replace (S i0 + length pre)%nat with (i0 + S (length pre))%nat by lia.
Qed.

(** X22. A [channel] attribute that is not an integer ends the listing of
    parts without an error: the parts before the offending one are kept,
    that part and all later ones are missing. *)
Theorem parts_stop_at_bad_channel (pre post : list Part) (bad : Part) (e : exn)
    (m : metadata) :
  Forall channel_readable pre ->
  part_entry (length pre) bad = Raise e ->
  _extract_parts_info (pre ++ bad :: post) m = _extract_parts_info pre m /\
  length (parts (_extract_parts_info (pre ++ bad :: post) m)) =
    (length (parts m) + length pre)%nat.
Proof.
  intros Hpre Hbad.
  assert (E : _extract_parts_info (pre ++ bad :: post) m = _extract_parts_info pre m).
  { unfold _extract_parts_info. f_equal.
    rewrite (append_parts_app pre (bad :: post) Hpre). simpl. now rewrite Hbad. }
  split; [exact E|]. rewrite E.
  destruct (append_parts_readable pre Hpre 0%nat (parts m)) as (infos & E' & HF & _).
  unfold _extract_parts_info. simpl. rewrite E', length_app.
  now rewrite (Forall2_length _ _ _ HF).
Qed.

Lemma parts_stop_at_bad_channel_witness :
  _extract_parts_info
    ([{| id_attr := Some "P1"; instrument := None |}] ++
     {| id_attr := Some "P2";
        instrument := Some {| longName := None; shortName := None;
                              channel_elem := Some (Some "ten") |} |}
     :: [{| id_attr := Some "P3"; instrument := None |}]) empty_metadata
  = _extract_parts_info [{| id_attr := Some "P1"; instrument := None |}] empty_metadata /\
  length (parts (_extract_parts_info
                   ([{| id_attr := Some "P1"; instrument := None |}] ++
                    {| id_attr := Some "P2";
                       instrument := Some {| longName := None; shortName := None;
                                             channel_elem := Some (Some "ten") |} |}
                    :: [{| id_attr := Some "P3"; instrument := None |}]) empty_metadata))
  = (length (parts empty_metadata) + 1)%nat.
Proof.
  apply (parts_stop_at_bad_channel [{| id_attr := Some "P1"; instrument := None |}] _ _
           ValueError).
  - constructor; [|constructor]. intros ins text. discriminate.
  - reflexivity.
Defined.

(** X23. The repair entry point returns True for every file it can read.
    It writes a file only when the analysis asks for separation, and then
    the hands are split at the caller's [split_note], not at the split the
    analysis computed: right-hand notes are at or above [split_note],
    left-hand notes below it, under a metadata track holding only the name
    'Untitled'. *)
Theorem repair_splits_at_the_given_note (mid : Mido.MidiFile) (split_note : Z) :
  let result := fix_existing_midi_for_smart_pianist (Some mid) split_note in
  fst result = true /\
  (Advanced.needs_separation (Advanced._analyze_track_structure mid) = false ->
   snd result = None) /\
  (Advanced.needs_separation (Advanced._analyze_track_structure mid) = true ->
   exists new_mid right left,
     snd result = Some new_mid /\
     Mido.tracks new_mid = [[Mido.track_name "Untitled"]; right; left] /\
     Forall (fun msg => Advanced.is_note msg = true -> split_note <= Mido.note msg) right /\
     Forall (fun msg => Advanced.is_note msg = true -> Mido.note msg < split_note) left).
Proof.
  intros result. subst result. unfold fix_existing_midi_for_smart_pianist.
  destruct (Advanced.needs_separation (Advanced._analyze_track_structure mid)).
  - split; [reflexivity|]. split; [discriminate|]. intros _.
    destruct (SeparationFacts.hands_split_shape mid [Mido.track_name "Untitled"]
                (with_split_point split_note (Advanced._analyze_track_structure mid)))
      as (_ & right & left & Ht & Hr & Hl & _).
    eexists _, right, left. split; [reflexivity|]. split; [exact Ht|].
    split; [exact Hr|exact Hl].
  - split; [reflexivity|]. split; [reflexivity|discriminate].
Qed.

Lemma repair_splits_at_the_given_note_witness :
  snd (fix_existing_midi_for_smart_pianist
         (Some (AnalysisSpec.file_of_notes [(0, 40); (0, 72)])) 60) = None.
Proof.
  apply (repair_splits_at_the_given_note
           (AnalysisSpec.file_of_notes [(0, 40); (0, 72)]) 60).
  reflexivity.
Defined.

End MetadataFacts.
